(** * notes-to-questions-generator: the generation chain of [backend/chatbot.py]

    A shallow embedding of [get_prompt], [try_llamacpp_generate],
    [try_gpt4all_generate], [safe_json_parse], [mock_generate] and
    [generate_qa_from_notes], together with the parts of the Python run time
    they rely on (string slicing, [str.strip], [str.find], [str.rfind],
    [re.split], [json.loads]), and the properties of the generation chain
    proved over them.

    Conventions of the model:
    - a Python [str] is the list of its Unicode code points;
    - a Python [int] is a [Z];
    - a Python object is a [value]; a [dict] is the list of its items in
      insertion order, keys unique; [bytes] are not modelled;
    - a call that can raise returns a [result]; only exceptions derived from
      [Exception] are modelled (the ones [except Exception] catches), and
      [json.loads] on a [str] raises nothing but [JSONDecodeError];
    - the local engines (LlamaCpp, GPT4All) are external: a [backends] record
      gives, for each of them, what its import and constructor and what its
      generation call do; every call to them and every [print] is logged as
      an [event];
    - the statements the module runs when it is imported (the import of
      [gpt4all] and the construction of the module-level [model]) come
      before any call of these functions and are not part of the model. *)

From Stdlib Require Import String Ascii List ZArith NArith Bool Lia.
From Stdlib Require Import DecimalString DecimalPos.
Import ListNotations.

Set Implicit Arguments.
Set Warnings "-register-all".

(* ================================================================== *)
(** * Python strings, slices and objects *)
(* ================================================================== *)

Module Py.

Definition char := N.
Definition str := list char.

(** Code point of an ASCII character, and the [str] of an ASCII literal. *)
Definition ch (a : ascii) : char := N_of_ascii a.
Definition lit (s : string) : str := map ch (list_ascii_of_string s).

Definition NL : char := 10%N.      (* \n *)
Definition DOT : char := 46%N.     (* .  *)
Definition DQUOTE : char := 34%N.  (* double quote *)
Definition LBRACK : char := 91%N.  (* [ *)
Definition RBRACK : char := 93%N.  (* ] *)

(** [str.isspace] on one code point: the characters [str.strip()] removes. *)
Definition isspace (c : char) : bool :=
  (((9 <=? c) && (c <=? 13)) || ((28 <=? c) && (c <=? 32))
   || (c =? 133) || (c =? 160) || (c =? 5760)
   || ((8192 <=? c) && (c <=? 8202))
   || (c =? 8232) || (c =? 8233) || (c =? 8239) || (c =? 8287)
   || (c =? 12288))%N.

Fixpoint lstrip (s : str) : str :=
  match s with
  | c :: s' => if isspace c then lstrip s' else s
  | [] => []
  end.

Definition rstrip (s : str) : str := rev (lstrip (rev s)).

(** [s.strip()] *)
Definition strip (s : str) : str := rstrip (lstrip s).

(** Truth value of a sequence: non-empty. *)
Definition truthy {A} (l : list A) : bool :=
  match l with [] => false | _ :: _ => true end.

Definition len {A} (l : list A) : Z := Z.of_nat (List.length l).

(** Position of a slice bound inside a sequence of length [n]: a negative
    bound counts from the end, and every bound is clipped to [0..n]. *)
Definition clip (n : Z) (i : Z) : nat :=
  Z.to_nat (if (i <? 0)%Z then Z.max 0 (n + i) else Z.min i n).

(** [l[:stop]] *)
Definition slice_to {A} (l : list A) (stop : Z) : list A :=
  firstn (clip (len l) stop) l.

(** [l[start:stop]] *)
Definition slice {A} (l : list A) (start stop : Z) : list A :=
  let a := clip (len l) start in
  let b := clip (len l) stop in
  firstn (b - a) (skipn a l).

(** [s.find(c)] for a one-character needle: the lowest index, or -1. *)
Fixpoint find_from (c : char) (s : str) (i : Z) : Z :=
  match s with
  | [] => (-1)%Z
  | x :: s' => if (x =? c)%N then i else find_from c s' (i + 1)%Z
  end.
Definition find (c : char) (s : str) : Z := find_from c s 0.

(** [s.rfind(c)] for a one-character needle: the highest index, or -1. *)
Fixpoint rfind_from (c : char) (s : str) (i : Z) : Z :=
  match s with
  | [] => (-1)%Z
  | x :: s' =>
      let r := rfind_from c s' (i + 1)%Z in
      if (r =? -1)%Z then (if (x =? c)%N then i else (-1)%Z) else r
  end.
Definition rfind (c : char) (s : str) : Z := rfind_from c s 0.

(** [str(n)] for an [int]: decimal digits, a leading [-] when negative. *)
Definition str_of_int (n : Z) : str :=
  lit (NilZero.string_of_int (Z.to_int n)).

(** Python objects, as far as the program meets them.  A float is kept as
    the text it was read from: no claim depends on its numeric value. *)
Inductive value : Type :=
| VNone
| VBool (b : bool)
| VInt (z : Z)
| VFloat (repr : str)
| VStr (s : str)
| VList (items : list value)
| VTuple (items : list value)
| VDict (kvs : list (str * value)).

Definition str_eqb (a b : str) : bool :=
  if list_eq_dec N.eq_dec a b then true else false.

(** [d[k]] lookup and [d[k] = v] on the item list of a dict. *)
Fixpoint dict_get (kvs : list (str * value)) (k : str) : option value :=
  match kvs with
  | [] => None
  | (k', v) :: rest => if str_eqb k' k then Some v else dict_get rest k
  end.

Fixpoint dict_set (kvs : list (str * value)) (k : str) (v : value)
  : list (str * value) :=
  match kvs with
  | [] => [(k, v)]
  | (k', v') :: rest =>
      if str_eqb k' k then (k', v) :: rest else (k', v') :: dict_set rest k v
  end.

(** Exceptions (all subclasses of [Exception]). *)
Inductive exn : Type :=
| JSONDecodeError
| TypeError
| IndexError
| ImportError
| EngineError (what : str).   (* anything an engine raises *)

Inductive result (A : Type) : Type :=
| Ok (a : A)
| Raise (e : exn).
Arguments Ok {A} a.
Arguments Raise {A} e.

End Py.
Import Py.

(* ================================================================== *)
(** * json.loads *)
(* ================================================================== *)

(** The decoder of Python's [json] module with its default settings, on a
    [str]: the JSON grammar, the constants [NaN], [Infinity] and [-Infinity],
    strict strings (no raw control character), insignificant white space
    limited to space, tab, line feed and carriage return, and [dict]
    semantics for repeated keys.  The decoder reads the text once, character
    by character ([lex_step]) and token by token ([parse_step]); every
    malformed text is a [JSONDecodeError], modelled as [None]. *)

Module Json.

Inductive token : Type :=
| TLBrack | TRBrack | TLBrace | TRBrace | TComma | TColon
| TScalar (v : value).

(** Where the decoder's number pattern stands: an optional minus sign, then
    0 or a non-zero digit and further digits, then optionally a dot and
    digits, then optionally e or E, an optional sign and digits. *)
Inductive num_state : Type :=
| NMinus | NZero | NInt | NDot | NFrac | NExpMark | NExpSign | NExp.

Inductive lex_state : Type :=
| LIdle
| LString (acc : str) (hi : bool)
    (* inside a string; [acc] is reversed; [hi]: the last character is a
       high surrogate written as a \u escape *)
| LEscape (acc : str) (hi : bool)                 (* after a backslash *)
| LUnicode (acc : str) (hi : bool) (digits : list N)  (* after \u *)
| LNumber (st : num_state) (text : str)           (* [text] is reversed *)
| LWord (rest : str) (v : value).                 (* inside a constant *)

Definition is_ws (c : char) : bool :=
  ((c =? 32) || (c =? 9) || (c =? 10) || (c =? 13))%N.

Definition is_digit (c : char) : bool := ((48 <=? c) && (c <=? 57))%N.

Definition hex_value (c : char) : option N :=
  if ((48 <=? c) && (c <=? 57))%N then Some (c - 48)%N
  else if ((97 <=? c) && (c <=? 102))%N then Some (c - 87)%N
  else if ((65 <=? c) && (c <=? 70))%N then Some (c - 55)%N
  else None.

(** [int(text)] for the integer part matched by the number pattern. *)
Definition digits_value (ds : str) : Z :=
  fold_left (fun acc c => (10 * acc + Z.of_N (c - 48))%Z) ds 0%Z.
Definition int_of_text (text : str) : Z :=
  match text with
  | 45%N :: ds => (- digits_value ds)%Z
  | _ => digits_value text
  end.

Definition lex_idle (c : char) : option (lex_state * list token) :=
  if is_ws c then Some (LIdle, [])
  else if (c =? 91)%N then Some (LIdle, [TLBrack])
  else if (c =? 93)%N then Some (LIdle, [TRBrack])
  else if (c =? 123)%N then Some (LIdle, [TLBrace])
  else if (c =? 125)%N then Some (LIdle, [TRBrace])
  else if (c =? 44)%N then Some (LIdle, [TComma])
  else if (c =? 58)%N then Some (LIdle, [TColon])
  else if (c =? 34)%N then Some (LString [] false, [])
  else if (c =? 45)%N then Some (LNumber NMinus [c], [])
  else if (c =? 48)%N then Some (LNumber NZero [c], [])
  else if is_digit c then Some (LNumber NInt [c], [])
  else if (c =? 110)%N then Some (LWord (lit "ull") VNone, [])
  else if (c =? 116)%N then Some (LWord (lit "rue") (VBool true), [])
  else if (c =? 102)%N then Some (LWord (lit "alse") (VBool false), [])
  else if (c =? 78)%N then Some (LWord (lit "aN") (VFloat (lit "NaN")), [])
  else if (c =? 73)%N
       then Some (LWord (lit "nfinity") (VFloat (lit "Infinity")), [])
  else None.

(** The number read so far is complete, [c] is the character after it. *)
Definition lex_after (v : value) (c : char) : option (lex_state * list token) :=
  match lex_idle c with
  | Some (st, toks) => Some (st, TScalar v :: toks)
  | None => None
  end.

Definition is_exp_mark (c : char) : bool := ((c =? 101) || (c =? 69))%N.

Definition lex_number (st : num_state) (text : str) (c : char)
  : option (lex_state * list token) :=
  let more st' := Some (LNumber st' (c :: text), []) in
  let int_done := lex_after (VInt (int_of_text (rev text))) c in
  let float_done := lex_after (VFloat (rev text)) c in
  match st with
  | NMinus =>
      if (c =? 48)%N then more NZero
      else if is_digit c then more NInt
      else if (c =? 73)%N
           then Some (LWord (lit "nfinity") (VFloat (lit "-Infinity")), [])
      else None
  | NZero =>
      if (c =? 46)%N then more NDot
      else if is_exp_mark c then more NExpMark
      else int_done
  | NInt =>
      if is_digit c then more NInt
      else if (c =? 46)%N then more NDot
      else if is_exp_mark c then more NExpMark
      else int_done
  | NDot => if is_digit c then more NFrac else None
  | NFrac =>
      if is_digit c then more NFrac
      else if is_exp_mark c then more NExpMark
      else float_done
  | NExpMark =>
      if is_digit c then more NExp
      else if ((c =? 43) || (c =? 45))%N then more NExpSign
      else None
  | NExpSign => if is_digit c then more NExp else None
  | NExp => if is_digit c then more NExp else float_done
  end.

Definition is_high (u : N) : bool := ((55296 <=? u) && (u <=? 56319))%N.
Definition is_low (u : N) : bool := ((56320 <=? u) && (u <=? 57343))%N.

(** The character a completed \uXXXX escape adds to the string: a low
    surrogate right after an escaped high surrogate joins it. *)
Definition add_escaped (acc : str) (hi : bool) (u : N) : lex_state :=
  match acc with
  | h :: acc' =>
      if hi && is_low u
      then LString ((65536 + (N.lor (N.shiftl (h - 55296) 10) (u - 56320)))%N
                      :: acc') false
      else LString (u :: acc) (is_high u)
  | [] => LString [u] (is_high u)
  end.

Definition simple_escape (c : char) : option char :=
  if (c =? 34)%N then Some 34%N          (* quote *)
  else if (c =? 92)%N then Some 92%N     (* backslash *)
  else if (c =? 47)%N then Some 47%N     (* slash *)
  else if (c =? 98)%N then Some 8%N      (* b *)
  else if (c =? 102)%N then Some 12%N    (* f *)
  else if (c =? 110)%N then Some 10%N    (* n *)
  else if (c =? 114)%N then Some 13%N    (* r *)
  else if (c =? 116)%N then Some 9%N     (* t *)
  else None.

Definition lex_step (st : lex_state) (c : char)
  : option (lex_state * list token) :=
  match st with
  | LIdle => lex_idle c
  | LString acc hi =>
      if (c =? 34)%N then Some (LIdle, [TScalar (VStr (rev acc))])
      else if (c =? 92)%N then Some (LEscape acc hi, [])
      else if (c <? 32)%N then None
      else Some (LString (c :: acc) false, [])
  | LEscape acc hi =>
      if (c =? 117)%N then Some (LUnicode acc hi [], [])
      else match simple_escape c with
           | Some x => Some (LString (x :: acc) false, [])
           | None => None
           end
  | LUnicode acc hi ds =>
      match hex_value c with
      | Some d =>
          match ds with
          | [d1; d2; d3] =>
              Some (add_escaped acc hi
                      (((d1 * 16 + d2) * 16 + d3) * 16 + d)%N, [])
          | _ => Some (LUnicode acc hi (ds ++ [d]), [])
          end
      | None => None
      end
  | LNumber ns text => lex_number ns text c
  | LWord rest v =>
      match rest with
      | [x] => if (c =? x)%N then Some (LIdle, [TScalar v]) else None
      | x :: rest' => if (c =? x)%N then Some (LWord rest' v, []) else None
      | [] => None
      end
  end.

(** End of the text: only a complete number may still be open. *)
Definition lex_end (st : lex_state) : option (list token) :=
  match st with
  | LIdle => Some []
  | LNumber NZero text | LNumber NInt text =>
      Some [TScalar (VInt (int_of_text (rev text)))]
  | LNumber NFrac text | LNumber NExp text => Some [TScalar (VFloat (rev text))]
  | _ => None
  end.

Fixpoint lex (st : lex_state) (s : str) : option (list token) :=
  match s with
  | [] => lex_end st
  | c :: s' =>
      match lex_step st c with
      | Some (st', toks) =>
          match lex st' s' with
          | Some rest => Some (toks ++ rest)
          | None => None
          end
      | None => None
      end
  end.

(** The containers that are open, innermost first. *)
Inductive frame : Type :=
| FArr (items_rev : list value)
| FObj (kvs : list (str * value)) (key : option str).

(** What the grammar allows next. *)
Inductive mode : Type :=
| MValue (may_close : bool)   (* a value; right after an opening bracket, also the closing one *)
| MKey (may_close : bool)     (* a key; right after an opening brace, also the closing one *)
| MColon
| MNext         (* a comma or the closer of the innermost container *)
| MDone (v : value).          (* the document is complete *)

Definition pstate : Type := mode * list frame.

(** A complete value goes to the innermost open container. *)
Definition push_value (v : value) (stack : list frame) : option pstate :=
  match stack with
  | [] => Some (MDone v, [])
  | FArr items :: st => Some (MNext, FArr (v :: items) :: st)
  | FObj kvs (Some k) :: st => Some (MNext, FObj (dict_set kvs k v) None :: st)
  | FObj _ None :: _ => None
  end.

Definition parse_step (ps : pstate) (t : token) : option pstate :=
  let (m, stack) := ps in
  match m, t with
  | MValue _, TScalar v => push_value v stack
  | MValue _, TLBrack => Some (MValue true, FArr [] :: stack)
  | MValue _, TLBrace => Some (MKey true, FObj [] None :: stack)
  | MValue true, TRBrack =>
      match stack with
      | FArr [] :: st => push_value (VList []) st
      | _ => None
      end
  | MKey _, TScalar (VStr k) =>
      match stack with
      | FObj kvs None :: st => Some (MColon, FObj kvs (Some k) :: st)
      | _ => None
      end
  | MKey true, TRBrace =>
      match stack with
      | FObj [] None :: st => push_value (VDict []) st
      | _ => None
      end
  | MColon, TColon => Some (MValue false, stack)
  | MNext, TComma =>
      match stack with
      | FArr _ :: _ => Some (MValue false, stack)
      | FObj _ None :: _ => Some (MKey false, stack)
      | _ => None
      end
  | MNext, TRBrack =>
      match stack with
      | FArr items :: st => push_value (VList (rev items)) st
      | _ => None
      end
  | MNext, TRBrace =>
      match stack with
      | FObj kvs None :: st => push_value (VDict kvs) st
      | _ => None
      end
  | _, _ => None
  end.

Fixpoint parse (ps : pstate) (toks : list token) : option value :=
  match toks with
  | [] => match ps with (MDone v, []) => Some v | _ => None end
  | t :: toks' =>
      match parse_step ps t with
      | Some ps' => parse ps' toks'
      | None => None
      end
  end.

(** [json.loads(s)] for a [str]: [None] is [JSONDecodeError]. *)
Definition decode (s : str) : option value :=
  match lex LIdle s with
  | Some toks => parse (MValue false, []) toks
  | None => None
  end.

(** [json.loads(raw)] for any object: only text is accepted. *)
Definition loads (raw : value) : result value :=
  match raw with
  | VStr s => match decode s with
              | Some v => Ok v
              | None => Raise JSONDecodeError
              end
  | _ => Raise TypeError
  end.

End Json.

(* ================================================================== *)
(** * The heuristic generator and the prompt (pure part of chatbot.py) *)
(* ================================================================== *)

Module Chatbot.

(** A dict with the three keys of a QA record, in the order the source
    writes them. *)
Definition qa (question answer text : str) : value :=
  VDict [ (lit "question", VStr question);
          (lit "answer", VStr answer);
          (lit "text", VStr text) ].

(** ** get_prompt (chatbot.py, lines 15-34) *)

Definition q (s : string) : str := [DQUOTE] ++ lit s ++ [DQUOTE].

Definition prompt_head (num_questions : Z) : str :=
  [NL] ++ lit "You are a concise study assistant." ++
  [NL] ++ lit "Given the notes below, generate " ++ str_of_int num_questions
       ++ lit " question-and-answer pairs." ++
  [NL] ++ lit "Each answer should be short (1-2 sentences) and accurate based on the notes." ++
  [NL] ++ lit "Include the specific source text from the notes the Q&A is based on." ++
  [NL] ++ lit "Return ONLY valid JSON: a list of objects with keys "
       ++ q "question" ++ lit ", " ++ q "answer" ++ lit ", and " ++ q "text"
       ++ lit "." ++
  [NL] ++
  [NL] ++ lit "Example:" ++
  [NL] ++ lit "[" ++
  [NL] ++ lit "  {" ++
  [NL] ++ lit "    " ++ q "question" ++ lit ": " ++ q "What is X?" ++ lit "," ++
  [NL] ++ lit "    " ++ q "answer" ++ lit ": " ++ q "X is ..." ++ lit "," ++
  [NL] ++ lit "    " ++ q "text" ++ lit ": "
       ++ q "The sentence or passage from notes about X." ++
  [NL] ++ lit "  }" ++
  [NL] ++ lit "]" ++
  [NL] ++
  [NL] ++ lit "Notes:" ++
  [NL].

Definition get_prompt (notes : str) (num_questions : Z) : str :=
  prompt_head num_questions ++ notes ++ [NL].

(** ** mock_generate (chatbot.py, lines 71-85) *)

(** The separator class of the pattern [[\n\.]+]. *)
Definition is_sep (c : char) : bool := ((c =? NL) || (c =? DOT))%N.

(** [re.split(r'[\n\.]+', s)]: the pieces between maximal runs of
    separators, an empty piece before a leading run and after a trailing one.
    [in_run] tells that the previous character was a separator. *)
Fixpoint re_split_from (in_run : bool) (s : str) : list str :=
  match s with
  | [] => [[]]
  | c :: s' =>
      if is_sep c then
        if in_run then re_split_from true s'
        else [] :: re_split_from true s'
      else
        match re_split_from false s' with
        | piece :: pieces => (c :: piece) :: pieces
        | [] => [[c]]
        end
  end.
Definition re_split (s : str) : list str := re_split_from false s.

(** [[s.strip() for s in re.split(r'[\n\.]+', notes) if s.strip()]] *)
Definition sentences (notes : str) : list str :=
  map strip (filter (fun s => truthy (strip s)) (re_split notes)).

Definition question_of (s : str) : str :=
  lit "What is the main idea of: '" ++ slice_to s 40 ++ lit "...'".
Definition answer_of (s : str) : str :=
  lit "The main idea is that " ++ slice_to s 80 ++ lit ".".

Definition padding (sents : list str) : value :=
  qa (lit "Summarize a key idea from the notes.")
     (lit "This section explains one of the main concepts.")
     (match sents with s0 :: _ => s0 | [] => [] end).

(** The [for] loop: one [append] per element of the slice. *)
Definition for_loop (units : list str) (results : list value) : list value :=
  fold_left
    (fun results s => results ++ [qa (question_of s) (answer_of s) s])
    units results.

(** The [while] loop: the condition is tested before each [append];
    [fuel] bounds the number of iterations (see [while_loop_exit]). *)
Fixpoint while_loop (fuel : nat) (num_questions : Z) (pad : value)
  (results : list value) : list value :=
  if (len results <? num_questions)%Z then
    match fuel with
    | O => results
    | S fuel' => while_loop fuel' num_questions pad (results ++ [pad])
    end
  else results.

Definition mock_generate (notes : str) (num_questions : Z) : list value :=
  let sents := sentences notes in
  let results := for_loop (slice_to sents num_questions) [] in
  while_loop (Z.to_nat (num_questions - len results)) num_questions
    (padding sents) results.

(** ** The engines and the log *)

Inductive engine : Type := LlamaCpp | GPT4All.

(** What the program does to the outside, in order.  [Heuristic] records
    the call of [mock_generate] by [generate_qa_from_notes]. *)
Inductive event : Type :=
| Print (msg : str) (e : option exn)        (* print(msg) or print(msg, e) *)
| Load (eng : engine) (model_path : str)    (* import and constructor *)
| Generate (eng : engine) (model_path prompt : str)
| Heuristic (notes : str) (num_questions : Z).

(** The engines: what the import and constructor do for a model path, and
    what the generation call returns for a model path and a prompt.  Either
    may raise any exception; the generation call may return any object. *)
Record backends : Type := {
  load : engine -> str -> result unit;
  generate : engine -> str -> str -> result value
}.

(** A computation logs events and returns or raises. *)
Definition M (A : Type) : Type := list event * result A.

Definition ret {A} (a : A) : M A := ([], Ok a).
Definition raise {A} (e : exn) : M A := ([], Raise e).
Definition tell (ev : event) : M unit := ([ev], Ok tt).
Definition bind {A B} (m : M A) (k : A -> M B) : M B :=
  match m with
  | (log, Ok a) => let (log', r) := k a in (log ++ log', r)
  | (log, Raise e) => (log, Raise e)
  end.

Notation "x <- m ;; k" := (bind m (fun x => k))
  (at level 61, m at next level, right associativity).
Notation "m ;; k" := (bind m (fun _ => k))
  (at level 61, right associativity).

Definition print (msg : string) : M unit := tell (Print (lit msg) None).
Definition print_exn (msg : string) (e : exn) : M unit :=
  tell (Print (lit msg) (Some e)).

Definition call_load (W : backends) (eng : engine) (model_path : str)
  : M unit :=
  (tell (Load eng model_path) ;;
   match load W eng model_path with
   | Ok _ => ret tt
   | Raise e => raise e
   end).

Definition call_generate (W : backends) (eng : engine)
  (model_path prompt : str) : M value :=
  (tell (Generate eng model_path prompt) ;;
   match generate W eng model_path prompt with
   | Ok raw => ret raw
   | Raise e => raise e
   end).

(** ** safe_json_parse (chatbot.py, lines 54-68) *)

Definition warn_empty : M value :=
  (print "Warning: Could not parse JSON. Returning empty list." ;;
   ret (VList [])).

(** The [except json.JSONDecodeError] branch; [s] is [raw]. *)
Definition bracket_scan (s : str) : M value :=
  let start := find LBRACK s in
  let end_ := rfind RBRACK s in
  if (negb (start =? -1) && negb (end_ =? -1) && (end_ >? start))%Z then
    match Json.loads (VStr (slice s start (end_ + 1))) with
    | Ok v => ret v
    | Raise _ => warn_empty             (* except Exception: pass *)
    end
  else warn_empty.

Definition safe_json_parse (raw : value) : M value :=
  match Json.loads raw with
  | Ok v => ret v
  | Raise JSONDecodeError =>
      match raw with
      | VStr s => bracket_scan s
      | _ => raise TypeError    (* [loads] decodes text only *)
      end
  | Raise e => raise e                  (* not caught by the first [try] *)
  end.

(** ** try_llamacpp_generate, try_gpt4all_generate (lines 37-51) *)

Definition try_llamacpp_generate (W : backends) (notes model_path : str)
  (num_questions : Z) : M value :=
  (call_load W LlamaCpp model_path ;;
   let prompt := get_prompt notes num_questions in
   raw <- call_generate W LlamaCpp model_path prompt ;;
   safe_json_parse raw).

(** [raw[0]] after [isinstance(raw, (list, tuple))]. *)
Definition first_candidate (raw : value) : M value :=
  match raw with
  | VList (c :: _) | VTuple (c :: _) => ret c
  | VList [] | VTuple [] => raise IndexError
  | _ => ret raw
  end.

Definition try_gpt4all_generate (W : backends) (notes model_path : str)
  (num_questions : Z) : M value :=
  (call_load W GPT4All model_path ;;
   let prompt := get_prompt notes num_questions in
   raw <- call_generate W GPT4All model_path prompt ;;
   raw <- first_candidate raw ;;
   safe_json_parse raw).

(** ** generate_qa_from_notes (lines 88-107) *)

(** A model path is [None] or a [str]; [if path:] holds for a non-empty
    [str]. *)
Definition configured (path : option str) : bool :=
  match path with
  | Some p => truthy p
  | None => false
  end.

Definition path_of (path : option str) : str :=
  match path with Some p => p | None => [] end.

(** [try: return body / except Exception as e: print(msg, e)], followed by
    [rest]: what [body] returns is the result of the function; when it
    raises, the handler prints and control falls through to [rest]. *)
Definition try_return {A} (body : M A) (msg : string) (rest : M A) : M A :=
  match body with
  | (log, Ok v) => (log, Ok v)
  | (log, Raise e) =>
      let (log', r) := (print_exn msg e ;; rest) in (log ++ log', r)
  end.

Definition generate_qa_from_notes (W : backends) (notes : str)
  (num_questions : Z) (llamacpp_model_path gpt4all_model_path : option str)
  : M value :=
  let heuristic :=
    (print "Using mock generator (no model found)." ;;
     tell (Heuristic notes num_questions) ;;
     ret (VList (mock_generate notes num_questions))) in
  let second :=
    if configured gpt4all_model_path then
      try_return
        (print "Trying GPT4All model..." ;;
         try_gpt4all_generate W notes (path_of gpt4all_model_path)
           num_questions)
        "GPT4All failed:" heuristic
    else heuristic in
  if configured llamacpp_model_path then
    try_return
      (print "Trying LlamaCpp model..." ;;
       try_llamacpp_generate W notes (path_of llamacpp_model_path)
         num_questions)
      "LlamaCpp failed:" second
  else second.

End Chatbot.
Import Chatbot.

(* ================================================================== *)
(** * The HTTP endpoint (server.py) *)
(* ================================================================== *)

(** The view function [generate] of [backend/server.py].  What Flask and the
    [transformers] pipeline do is given by an [environment]: the value of
    [request.json] (which may raise), the result of the pipeline for a
    prompt (which may raise, and may be any object), and [str(x)] for the
    objects that are not texts.  The route admits the two methods OPTIONS
    and POST.  A response is the object given to [jsonify] and the headers
    the view adds to it; what Flask and the CORS extension add afterwards
    is not modelled. *)

Module Server.

Inductive http_method : Type := OPTIONS | POST.

Inductive error : Type :=
| BadRequest                  (* [request.json] cannot be read *)
| AttributeError              (* [data] has no [get] *)
| KeyError (key : str)
| TypeError                   (* not iterable, or not indexed by a text *)
| PipelineError (what : str). (* anything the pipeline raises *)

Inductive outcome (A : Type) : Type :=
| Return (a : A)
| Raised (e : error).
Arguments Return {A} a.
Arguments Raised {A} e.

Record response : Type := {
  body : value;
  headers : list (str * str)
}.

(** A call of the pipeline: [question_generator(prompt, max_length=...,
    num_return_sequences=...)]. *)
Inductive event : Type :=
| Infer (prompt : str) (max_length num_return_sequences : Z).

Record environment : Type := {
  request_json : outcome value;
  question_generator : str -> outcome value;
  str_of : value -> str
}.

(** [f"{x}"] *)
Definition format (E : environment) (x : value) : str :=
  match x with
  | VStr s => s
  | _ => str_of E x
  end.

(** [data.get(key, default)]: only a dict has the method. *)
Definition get (data : value) (key : str) (default : value) : outcome value :=
  match data with
  | VDict kvs =>
      Return (match dict_get kvs key with Some v => v | None => default end)
  | _ => Raised AttributeError
  end.

(** [r[key]] for a text [key]. *)
Definition subscript (r : value) (key : str) : outcome value :=
  match r with
  | VDict kvs =>
      match dict_get kvs key with
      | Some v => Return v
      | None => Raised (KeyError key)
      end
  | _ => Raised TypeError
  end.

(** What [for result in results] goes through: the elements of a list or
    tuple, the keys of a dict, the characters of a text. *)
Definition iterate (results : value) : outcome (list value) :=
  match results with
  | VList items | VTuple items => Return items
  | VDict kvs => Return (map (fun kv => VStr (fst kv)) kvs)
  | VStr s => Return (map (fun c => VStr [c]) s)
  | _ => Raised TypeError
  end.

Definition item (notes question : value) : value :=
  VDict [ (lit "text", notes); (lit "question", question) ].

(** [[{"text": notes, "question": result["generated_text"]}
      for result in results]] over the elements of [results]. *)
Fixpoint questions (notes : value) (results : list value)
  : outcome (list value) :=
  match results with
  | [] => Return []
  | result :: rest =>
      match subscript result (lit "generated_text") with
      | Raised e => Raised e
      | Return generated =>
          match questions notes rest with
          | Raised e => Raised e
          | Return items => Return (item notes generated :: items)
          end
      end
  end.

Definition instruction : str :=
  lit "Generate 1 sentence questions from the following notes, make sure to give some backgroun on the question: ".

Definition preflight : response :=
  {| body := VDict [ (lit "message", VStr (lit "CORS preflight")) ];
     headers :=
       [ (lit "Access-Control-Allow-Origin", lit "*");
         (lit "Access-Control-Allow-Methods", lit "POST, OPTIONS");
         (lit "Access-Control-Allow-Headers", lit "Content-Type") ] |}.

(** [jsonify(x)] *)
Definition jsonify (x : value) : response := {| body := x; headers := [] |}.

(** The view: the log of pipeline calls, and the response or the exception
    that leaves the view. *)
Definition generate (E : environment) (method : http_method)
  : list event * outcome response :=
  match method with
  | OPTIONS => ([], Return preflight)
  | POST =>
      match request_json E with
      | Raised e => ([], Raised e)
      | Return data =>
          match get data (lit "notes") (VStr []) with
          | Raised e => ([], Raised e)
          | Return notes =>
              let prompt := instruction ++ format E notes in
              let called := [Infer prompt 100 3] in
              match question_generator E prompt with
              | Raised e => (called, Raised e)
              | Return results =>
                  match iterate results with
                  | Raised e => (called, Raised e)
                  | Return elements =>
                      match questions notes elements with
                      | Raised e => (called, Raised e)
                      | Return items => (called, Return (jsonify (VList items)))
                      end
                  end
              end
          end
      end
  end.

End Server.

(* ================================================================== *)
(** * json.dumps and the example run (chatbot.py, lines 110-129) *)
(* ================================================================== *)

(** The encoder of Python's [json] module as the example run calls it:
    [json.dumps(obj, indent=2)], every other option at its default
    ([ensure_ascii], item separator [,], key separator [: ], keys in
    insertion order).  A float is written as the text the model keeps for
    it (Python writes the shortest text that reads back as the same double,
    which the model does not compute). *)

Module Dumps.

Definition hex_digit (d : N) : char :=
  (if d <? 10 then 48 + d else 87 + d)%N.

(** ['\\u{0:04x}'.format(n)] for [n] below 65536. *)
Definition u_escape (n : N) : str :=
  [ 92; 117;
    hex_digit (n / 4096); hex_digit ((n / 256) mod 16);
    hex_digit ((n / 16) mod 16); hex_digit (n mod 16) ]%N.

(** What replaces one character of a text: itself from the space to the
    tilde, the quote and the backslash apart; a short escape; a \u escape;
    two of them, for a surrogate pair, from 65536 on. *)
Definition escape_char (c : char) : str :=
  (if c =? 34 then [92; 34]
   else if c =? 92 then [92; 92]
   else if c =? 8 then [92; 98]
   else if c =? 12 then [92; 102]
   else if c =? 10 then [92; 110]
   else if c =? 13 then [92; 114]
   else if c =? 9 then [92; 116]
   else if (32 <=? c) && (c <=? 126) then [c]
   else if c <? 65536 then u_escape c
   else
     let n := c - 65536 in
     u_escape (N.lor 55296 (N.land (N.shiftr n 10) 1023))
       ++ u_escape (N.lor 56320 (N.land n 1023)))%N.

Definition encode_str (s : str) : str :=
  [DQUOTE] ++ flat_map escape_char s ++ [DQUOTE].

(** A line feed and the indentation of a nesting level. *)
Definition newline_indent (level : nat) : str :=
  NL :: repeat 32%N (2 * level).

(** A list or a dict from the texts of its members: [[]] or [{}] when
    empty; otherwise the members on lines of their own, one level deeper,
    with a comma after each but the last. *)
Definition encode_seq (level : nat) (opening closing : char)
  (members : list str) : str :=
  match members with
  | [] => [opening; closing]
  | first :: others =>
      [opening] ++ newline_indent (S level) ++ first
        ++ flat_map (fun m => [44%N] ++ newline_indent (S level) ++ m) others
        ++ newline_indent level ++ [closing]
  end.

Fixpoint dumps_at (level : nat) (v : value) : str :=
  match v with
  | VNone => lit "null"
  | VBool true => lit "true"
  | VBool false => lit "false"
  | VInt z => str_of_int z
  | VFloat repr => repr
  | VStr s => encode_str s
  | VList items | VTuple items =>
      encode_seq level 91%N 93%N (map (dumps_at (S level)) items)
  | VDict kvs =>
      encode_seq level 123%N 125%N
        (map (fun kv =>
                match kv with
                | (k, x) => encode_str k ++ lit ": " ++ dumps_at (S level) x
                end) kvs)
  end.

(** [json.dumps(v, indent=2)] *)
Definition dumps (v : value) : str := dumps_at 0 v.

End Dumps.

(** The example run under [if __name__ == "__main__":]. *)
Module Example.




End Example.

(* ================================================================== *)
(** * Vocabulary of the properties *)
(* ================================================================== *)

(** ** Decimal text *)

(** One more digit, read from the left. *)
Definition decimal_step (acc : Z) (c : char) : Z :=
  (10 * acc + Z.of_N (c - 48))%Z.

(** ** Records of the heuristic generator *)

(** The record the [for] loop of [mock_generate] appends for a unit. *)
Definition record_of (s : str) : value := qa (question_of s) (answer_of s) s.

(** ** Sentence-like units *)

(** What "split on line breaks and periods, trim, discard the empty units,
    keep the order" means for a text: [splits text units] holds when [text]
    is the units in order, each one free of separators and of white space at
    its two ends, with only separators and white space around them, and a
    separator between any unit and the next. *)
Definition space (w : str) : Prop := Forall (fun c => isspace c = true) w.
Definition gap (g : str) : Prop :=
  Forall (fun c => is_sep c = true \/ isspace c = true) g.
Definition no_sep (p : str) : Prop := Forall (fun c => is_sep c = false) p.

Definition unit_ok (u : str) : Prop :=
  u <> [] /\ no_sep u
  /\ (forall c u', u = c :: u' -> isspace c = false)
  /\ (forall c u', u = u' ++ [c] -> isspace c = false).

(** The text after a unit: it ends there, or a separator comes first. *)
Definition sep_first (t : str) : Prop :=
  t = [] \/ exists c t', t = c :: t' /\ is_sep c = true.

Inductive splits : str -> list str -> Prop :=
| splits_nil (g : str) : gap g -> splits g []
| splits_cons (g u w t : str) (us : list str) :
    gap g -> unit_ok u -> space w -> sep_first t -> splits t us ->
    splits (g ++ u ++ w ++ t) (u :: us).

(** The pieces of a text between runs of separators. *)
Inductive pieces : str -> list str -> Prop :=
| pieces_one (p : str) : no_sep p -> pieces p [p]
| pieces_cons (p r t : str) (ps : list str) :
    no_sep p -> r <> [] -> Forall (fun c => is_sep c = true) r ->
    pieces t ps -> pieces (p ++ r ++ t) (p :: ps).

(** A text that starts with a character of a unit. *)
Definition starts_word (x : str) : Prop :=
  exists c y, x = c :: y /\ is_sep c = false /\ isspace c = false.

(** What follows a unit: white space, then the end or a separator. *)
Definition after_unit (r : str) : Prop :=
  exists w t, r = w ++ t /\ space w /\ sep_first t.

(** ** Reading the log *)

(** The computation ends with an exception. *)
Definition raisesb {A} (m : M A) : bool :=
  match snd m with Raise _ => true | Ok _ => false end.

Definition engine_eqb (a b : engine) : bool :=
  match a, b with
  | LlamaCpp, LlamaCpp | GPT4All, GPT4All => true
  | _, _ => false
  end.

(** Who is called: an engine (constructor or generation) or the heuristic
    generator; a [print] calls nobody. *)
Inductive callee : Type := Engine (eng : engine) | Mock.

Definition callee_of (ev : event) : option callee :=
  match ev with
  | Load eng _ | Generate eng _ _ => Some (Engine eng)
  | Heuristic _ _ => Some Mock
  | Print _ _ => None
  end.

Fixpoint calls (log : list event) : list callee :=
  match log with
  | [] => []
  | ev :: log' =>
      match callee_of ev with
      | Some c => c :: calls log'
      | None => calls log'
      end
  end.

(** An attempt on an engine starts with its constructor. *)
Definition is_load (eng : engine) (ev : event) : bool :=
  match ev with Load e _ => engine_eqb e eng | _ => false end.
Definition is_generate (eng : engine) (ev : event) : bool :=
  match ev with Generate e _ _ => engine_eqb e eng | _ => false end.
Definition is_heuristic (ev : event) : bool :=
  match ev with Heuristic _ _ => true | _ => false end.

Definition count (f : event -> bool) (log : list event) : nat :=
  List.length (filter f log).

Definition attempts (eng : engine) : list event -> nat := count (is_load eng).
Definition generations (eng : engine) : list event -> nat :=
  count (is_generate eng).
Definition heuristic_calls : list event -> nat := count is_heuristic.

(** ** The two tiers of the parser *)

Definition warning : event :=
  Print (lit "Warning: Could not parse JSON. Returning empty list.") None.

(** The text the second tier decodes: from the first opening bracket to the
    last closing bracket, both included, when the closing one comes later. *)
Definition bracketed (s : str) : option str :=
  let start := find LBRACK s in
  let end_ := rfind RBRACK s in
  if (negb (start =? -1) && negb (end_ =? -1) && (end_ >? start))%Z
  then Some (slice s start (end_ + 1))
  else None.

(** Both tiers fail on [s]. *)
Definition unparsable (s : str) : Prop :=
  Json.decode s = None
  /\ match bracketed s with
     | Some t => Json.decode t = None
     | None => True
     end.




(** What one attempt logs: the constructor of its engine once, at most one
    generation call, nothing of the other engine or of the heuristic. *)
Record attempt_on (eng : engine) (log : list event) : Prop := {
  attempt_load : attempts eng log = 1%nat;
  attempt_generate : (generations eng log <= 1)%nat;
  attempt_calls : exists k, calls log = repeat (Engine eng) k;
  attempt_heuristic : heuristic_calls log = 0%nat
}.

(** ** Steps of the chain *)

(** Step of the chain did not produce the result: its engine is not
    configured, or the attempt raised. *)
Definition fell (path : option str) (a : M value) : bool :=
  negb (configured path) || raisesb a.

(** The log of [try: print(trying); return a / except: print(failed, e)]. *)
Definition attempt_log (trying failed : string) (a : M value) : list event :=
  Print (lit trying) None
    :: fst a
    ++ match snd a with
       | Raise e => [Print (lit failed) (Some e)]
       | Ok _ => []
       end.

Definition heuristic_log (notes : str) (n : Z) : list event :=
  [Print (lit "Using mock generator (no model found).") None;
   Heuristic notes n].


(** ** QA records *)

Definition is_str (v : option value) : bool :=
  match v with Some (VStr _) => true | _ => false end.

(** A dict with a text under each of the three keys. *)
Definition is_qa_record (v : value) : bool :=
  match v with
  | VDict kvs =>
      is_str (dict_get kvs (lit "question"))
      && is_str (dict_get kvs (lit "answer"))
      && is_str (dict_get kvs (lit "text"))
  | _ => false
  end.

(** A list of QA records. *)
Definition is_qa_list (v : value) : bool :=
  match v with
  | VList items => forallb is_qa_record items
  | _ => false
  end.

Definition contains (needle hay : str) : Prop :=
  exists a b, hay = a ++ needle ++ b.

Definition canned_question : str := lit "Summarize a key idea from the notes.".
Definition canned_answer : str :=
  lit "This section explains one of the main concepts.".

(** A QA record with a question and an answer that are not empty, and a
    text that is empty only under [excuse]. *)
Definition filled (excuse : Prop) (r : value) : Prop :=
  exists question answer text,
    r = qa question answer text
    /\ question <> [] /\ answer <> [] /\ (text = [] -> excuse).

(** ** Engines of the examples *)

(** Engines for the examples: each constructor and generation call is
    given by what it does whatever its arguments. *)
Definition engines (llama_load gpt_load : result unit)
  (llama_out gpt_out : result value) : backends :=
  {| load := fun eng _ =>
       match eng with LlamaCpp => llama_load | GPT4All => gpt_load end;
     generate := fun eng _ _ =>
       match eng with LlamaCpp => llama_out | GPT4All => gpt_out end |}.

Definition missing : result unit := Raise ImportError.
Definition crashed : result value := Raise (EngineError (lit "generation failed")).
Definition says (text : str) : result value := Ok (VStr text).

(** ** Units put back into a text *)

(** The units written one after the other, each closed by a period and a
    space. *)
Definition rejoin (units : list str) : str :=
  concat (map (fun u => u ++ lit ". ") units).

(** ** What the engines are given *)

Definition path_for (lp gp : option str) (eng : engine) : option str :=
  match eng with LlamaCpp => lp | GPT4All => gp end.

(** An event of a run on [notes], the count [n] and the two paths: an
    engine is called only when configured, with its own path and with the
    prompt of the notes and the count; the heuristic generator is called
    with the notes and the count. *)
Definition sent_ok (notes : str) (n : Z) (lp gp : option str) (ev : event)
  : Prop :=
  match ev with
  | Load eng p =>
      configured (path_for lp gp eng) = true /\ path_for lp gp eng = Some p
  | Generate eng p prompt =>
      configured (path_for lp gp eng) = true /\ path_for lp gp eng = Some p
      /\ prompt = get_prompt notes n
  | Heuristic notes' n' => notes' = notes /\ n' = n
  | Print _ _ => True
  end.

(** ** The endpoint *)

(** [data.get("notes", "")] for the items of a dict. *)
Definition posted_notes (data : list (str * value)) : value :=
  match dict_get data (lit "notes") with
  | Some v => v
  | None => VStr []
  end.

(** The prompt the view builds for the notes. *)
Definition prompt_for (E : Server.environment) (notes : value) : str :=
  Server.instruction ++ Server.format E notes.

(** [result] holds the text [generated] under the key the view reads. *)
Definition generated (result generated_text : value) : Prop :=
  Server.subscript result (lit "generated_text") = Server.Return generated_text.

(** An environment for the examples: the posted object, and what the
    pipeline returns whatever the prompt. *)
Definition posting (json pipeline_out : Server.outcome value)
  : Server.environment :=
  {| Server.request_json := json;
     Server.question_generator := fun _ => pipeline_out;
     Server.str_of := fun _ => [] |}.

(** ** What json.dumps writes and json.loads reads back *)

(** A Unicode scalar value: a code point below 1114112 that is not a
    surrogate. *)
Definition scalar (c : char) : Prop :=
  (c < 55296 \/ (57344 <= c /\ c < 1114112))%N.

(** The text goes on with something that cannot continue a number. *)
Definition delimited (tail : str) : Prop :=
  match tail with
  | [] => True
  | c :: _ =>
      Json.is_digit c = false /\ (c =? 46)%N = false
      /\ Json.is_exp_mark c = false
  end.

(** Induction on an object, through the members of lists, tuples and
    dicts. *)
Section ValueInduction.
Variable P : value -> Prop.
Hypothesis HNone : P VNone.
Hypothesis HBool : forall b, P (VBool b).
Hypothesis HInt : forall z, P (VInt z).
Hypothesis HFloat : forall repr, P (VFloat repr).
Hypothesis HStr : forall s, P (VStr s).
Hypothesis HList : forall items, Forall P items -> P (VList items).
Hypothesis HTuple : forall items, Forall P items -> P (VTuple items).
Hypothesis HDict :
  forall kvs, Forall (fun kv => P (snd kv)) kvs -> P (VDict kvs).

Fixpoint value_nested_ind (v : value) : P v :=
  match v with
  | VNone => HNone
  | VBool b => HBool b
  | VInt z => HInt z
  | VFloat repr => HFloat repr
  | VStr s => HStr s
  | VList items =>
      HList ((fix all (l : list value) : Forall P l :=
                match l with
                | [] => Forall_nil P
                | x :: r => Forall_cons x (value_nested_ind x) (all r)
                end) items)
  | VTuple items =>
      HTuple ((fix all (l : list value) : Forall P l :=
                 match l with
                 | [] => Forall_nil P
                 | x :: r => Forall_cons x (value_nested_ind x) (all r)
                 end) items)
  | VDict kvs =>
      HDict ((fix all (l : list (str * value))
                : Forall (fun kv => P (snd kv)) l :=
                match l with
                | [] => Forall_nil _
                | kv :: r =>
                    Forall_cons kv (value_nested_ind (snd kv)) (all r)
                end) kvs)
  end.
End ValueInduction.

(** The objects [json.loads] gives back as they were when [json.dumps]
    has written them: texts and keys made of scalar values, no float (the
    model does not compute its text), no tuple (it is written as a list),
    no key twice in a dict. *)
Inductive dumpable : value -> Prop :=
| dumpable_none : dumpable VNone
| dumpable_bool (b : bool) : dumpable (VBool b)
| dumpable_int (z : Z) : dumpable (VInt z)
| dumpable_str (s : str) : Forall scalar s -> dumpable (VStr s)
| dumpable_list (items : list value) :
    Forall dumpable items -> dumpable (VList items)
| dumpable_dict (kvs : list (str * value)) :
    NoDup (map fst kvs) ->
    Forall (fun kv => Forall scalar (fst kv) /\ dumpable (snd kv)) kvs ->
    dumpable (VDict kvs).

(** The tokens of the members of a list or dict, commas between them. *)
Definition separated (members : list (list Json.token)) : list Json.token :=
  match members with
  | [] => []
  | first :: others => first ++ flat_map (cons Json.TComma) others
  end.

(** The tokens of the text of an object. *)
Fixpoint tokens_of (v : value) : list Json.token :=
  match v with
  | VList items | VTuple items =>
      Json.TLBrack :: separated (map tokens_of items) ++ [Json.TRBrack]
  | VDict kvs =>
      Json.TLBrace
        :: separated
             (map (fun kv =>
                     match kv with
                     | (k, x) =>
                         Json.TScalar (VStr k) :: Json.TColon :: tokens_of x
                     end) kvs)
        ++ [Json.TRBrace]
  | _ => [Json.TScalar v]
  end.

(** The text [m], followed by something that cannot continue a number, is
    read as the tokens [t]. *)
Definition reads_as (m : str) (t : list Json.token) : Prop :=
  forall tail, delimited tail ->
    Json.lex Json.LIdle (m ++ tail)
    = option_map (app t) (Json.lex Json.LIdle tail).

(** The tokens of an object, wherever a value is expected, leave the
    decoder as the object itself does. *)
Definition parses_back (v : value) : Prop :=
  forall b stack toks,
    Json.parse (Json.MValue b, stack) (tokens_of v ++ toks)
    = match Json.push_value v stack with
      | Some ps => Json.parse ps toks
      | None => None
      end.

Definition member_tokens (kv : str * value) : list Json.token :=
  match kv with
  | (k, x) => Json.TScalar (VStr k) :: Json.TColon :: tokens_of x
  end.

(** ** The example run *)



(* ================================================================== *)
(** * Properties *)
(* ================================================================== *)

(** ** Slices *)

Lemma len_app {A} (l1 l2 : list A) : len (l1 ++ l2) = (len l1 + len l2)%Z.
Proof. unfold len. rewrite length_app. lia. Qed.

Lemma slice_to_nonneg {A} (l : list A) (n : Z) :
  (0 <= n)%Z -> slice_to l n = firstn (Z.to_nat n) l.
Proof.
  intros Hn. unfold slice_to, clip, len.
  destruct (Z.ltb_spec n 0); [lia|].
  destruct (Z.le_gt_cases n (Z.of_nat (List.length l))).
  - rewrite Z.min_l by lia. reflexivity.
  - rewrite Z.min_r by lia. rewrite Nat2Z.id.
    rewrite !firstn_all2; [reflexivity | lia | lia].
Qed.

Lemma slice_to_neg {A} (l : list A) (n : Z) :
  (n < 0)%Z -> slice_to l n = firstn (List.length l - Z.to_nat (- n)) l.
Proof.
  intros Hn. unfold slice_to, clip, len.
  destruct (Z.ltb_spec n 0); [|lia]. f_equal. lia.
Qed.

Lemma Forall_firstn {A} (P : A -> Prop) (k : nat) (l : list A) :
  Forall P l -> Forall P (firstn k l).
Proof.
  intros H. rewrite <- (firstn_skipn k l) in H.
  apply Forall_app in H. tauto.
Qed.

Lemma slice_to_length {A} (l : list A) (n : Z) :
  (0 <= n)%Z -> List.length (slice_to l n) = Nat.min (Z.to_nat n) (List.length l).
Proof. intros. rewrite slice_to_nonneg by assumption. apply length_firstn. Qed.

(** ** Decimal text of an integer *)

Lemma digits_value_acc (d : Decimal.uint) (acc : positive) :
  fold_left decimal_step (lit (NilEmpty.string_of_uint d)) (Z.pos acc)
  = Z.pos (Pos.of_uint_acc d acc).
Proof.
  revert acc. induction d; intros acc;
    cbn [NilEmpty.string_of_uint lit list_ascii_of_string map fold_left
         Pos.of_uint_acc];
    [reflexivity | ..];
    fold (lit (NilEmpty.string_of_uint d)); rewrite <- IHd; f_equal;
    unfold decimal_step;
    match goal with
    | |- context [ch ?c] =>
        let v := eval vm_compute in (ch c) in change (ch c) with v
    end; lia.
Qed.

Lemma digits_value_uint (d : Decimal.uint) :
  Json.digits_value (lit (NilEmpty.string_of_uint d)) = Z.of_N (Pos.of_uint d).
Proof.
  unfold Json.digits_value. fold decimal_step.
  induction d;
    cbn [NilEmpty.string_of_uint lit list_ascii_of_string map fold_left
         Pos.of_uint];
    [reflexivity | exact IHd | ..];
    exact (digits_value_acc d _).
Qed.

Lemma int_of_text_digits (d : Decimal.uint) :
  Json.int_of_text (lit (NilEmpty.string_of_uint d))
  = Json.digits_value (lit (NilEmpty.string_of_uint d)).
Proof. destruct d; reflexivity. Qed.

Lemma string_of_uint_nonnil (d : Decimal.uint) :
  d <> Decimal.Nil -> NilZero.string_of_uint d = NilEmpty.string_of_uint d.
Proof. destruct d; [contradiction | reflexivity ..]. Qed.

(** Read as a decimal integer, [str(n)] is [n]. *)
Lemma str_of_int_decimal (n : Z) : Json.int_of_text (str_of_int n) = n.
Proof.
  unfold str_of_int. destruct n as [|p|p]; [reflexivity | ..]; simpl Z.to_int;
    simpl NilZero.string_of_int;
    rewrite (string_of_uint_nonnil (Unsigned.to_uint_nonnil p)).
  - rewrite int_of_text_digits, digits_value_uint, Unsigned.of_to. reflexivity.
  - change (lit (String "-" ?s)) with (45%N :: lit s).
    cbn [Json.int_of_text].
    rewrite digits_value_uint, Unsigned.of_to. reflexivity.
Qed.

(** ** The two loops of mock_generate *)

Lemma for_loop_map (units : list str) (results : list value) :
  for_loop units results = results ++ map record_of units.
Proof.
  unfold for_loop. revert results.
  induction units as [|u units IH]; intros results; simpl.
  - now rewrite app_nil_r.
  - rewrite IH. rewrite <- app_assoc. reflexivity.
Qed.

Lemma while_loop_repeat (fuel : nat) (n : Z) (pad : value) (results : list value) :
  (Z.to_nat (n - len results) <= fuel)%nat ->
  while_loop fuel n pad results
  = results ++ repeat pad (Z.to_nat (n - len results)).
Proof.
  revert results. induction fuel as [|fuel IH]; intros results Hfuel; simpl.
  - destruct (Z.ltb_spec (len results) n); [lia|].
    replace (Z.to_nat (n - len results)) with O by lia.
    simpl. now rewrite app_nil_r.
  - destruct (Z.ltb_spec (len results) n).
    + assert (Hlen : len (results ++ [pad]) = (len results + 1)%Z)
        by (rewrite len_app; reflexivity).
      rewrite IH by lia. rewrite Hlen.
      replace (Z.to_nat (n - len results))
        with (S (Z.to_nat (n - (len results + 1)))) by lia.
      simpl. rewrite <- app_assoc. reflexivity.
    + replace (Z.to_nat (n - len results)) with O by lia.
      simpl. now rewrite app_nil_r.
Qed.

(** The [while] loop of [mock_generate] leaves through its condition: the
    fuel it is given is never what stops it. *)
Lemma while_loop_exit (n : Z) (pad : value) (results : list value) :
  (len (while_loop (Z.to_nat (n - len results)) n pad results) <? n)%Z = false.
Proof.
  rewrite while_loop_repeat by lia.
  rewrite len_app. unfold len at 2. rewrite repeat_length.
  apply Z.ltb_ge. lia.
Qed.

(** [mock_generate] in closed form: the records of the sliced units, then
    the padding. *)
Lemma mock_generate_eq (notes : str) (n : Z) :
  mock_generate notes n
  = map record_of (slice_to (sentences notes) n)
    ++ repeat (padding (sentences notes))
         (Z.to_nat (n - len (slice_to (sentences notes) n))).
Proof.
  unfold mock_generate. rewrite for_loop_map. simpl.
  rewrite while_loop_repeat by lia.
  unfold len. rewrite length_map. reflexivity.
Qed.

Lemma mock_generate_length (notes : str) (n : Z) :
  (0 <= n)%Z -> List.length (mock_generate notes n) = Z.to_nat n.
Proof.
  intros Hn. rewrite mock_generate_eq, length_app, length_map, repeat_length.
  unfold len. rewrite slice_to_length by assumption. lia.
Qed.

(** ** Sentence-like units *)

Lemma pieces_push (c : char) (s : str) (ps : list str) :
  is_sep c = false -> pieces s ps ->
  match ps with
  | p :: ps' => pieces (c :: s) ((c :: p) :: ps')
  | [] => False
  end.
Proof.
  intros Hc H. destruct H.
  - apply pieces_one. now constructor.
  - apply (pieces_cons (p := c :: p)); auto. now constructor.
Qed.

Lemma re_split_from_pieces (s : str) :
  pieces s (re_split_from false s)
  /\ exists r t, s = r ++ t /\ Forall (fun c => is_sep c = true) r
                 /\ pieces t (re_split_from true s).
Proof.
  induction s as [|c s [IH1 (r & t & Hs & Hr & IH2)]]; simpl.
  - split; [apply pieces_one; constructor|].
    exists [], []. repeat split; try constructor. constructor.
  - destruct (is_sep c) eqn:Hc.
    + split.
      * replace (c :: s) with ([] ++ (c :: r) ++ t) by (simpl; congruence).
        apply pieces_cons; auto; [constructor | discriminate].
      * exists (c :: r), t. repeat split; auto. simpl. congruence.
    + pose proof (@pieces_push c _ _ Hc IH1) as Hp.
      destruct (re_split_from false s) as [|p ps]; [contradiction|].
      split; [exact Hp|].
      exists [], (c :: s). repeat split; auto.
Qed.

Lemma re_split_pieces (s : str) : pieces s (re_split s).
Proof. apply re_split_from_pieces. Qed.

(** [lstrip] and [strip] remove white space only, and all of it. *)
Lemma lstrip_split (s : str) : exists w, s = w ++ lstrip s /\ space w.
Proof.
  induction s as [|c s (w & Hs & Hw)]; simpl.
  - exists []. split; [reflexivity | constructor].
  - destruct (isspace c) eqn:Hc.
    + exists (c :: w). split; [simpl; congruence | now constructor].
    + exists []. split; [reflexivity | constructor].
Qed.

Lemma lstrip_head (s : str) (c : char) (t : str) :
  lstrip s = c :: t -> isspace c = false.
Proof.
  induction s as [|x s IH]; simpl; [discriminate|].
  destruct (isspace x) eqn:Hx; [exact IH|].
  intros H. injection H as -> _. exact Hx.
Qed.

Lemma lstrip_sub (P : char -> Prop) (s : str) :
  Forall P s -> Forall P (lstrip s).
Proof.
  induction 1 as [|x s Hx Hs IH]; simpl; [constructor|].
  destruct (isspace x); [exact IH | now constructor].
Qed.

Lemma space_rev (w : str) : space w -> space (rev w).
Proof. unfold space. rewrite !Forall_forall. intros H x Hx. apply H. now apply in_rev. Qed.

Lemma strip_split (s : str) :
  exists w1 w2, s = w1 ++ strip s ++ w2 /\ space w1 /\ space w2.
Proof.
  destruct (lstrip_split s) as (w1 & Hs & Hw1).
  destruct (lstrip_split (rev (lstrip s))) as (w2 & Hr & Hw2).
  exists w1, (rev w2). repeat split; auto using space_rev.
  unfold strip, rstrip. rewrite <- rev_app_distr, <- Hr, rev_involutive.
  exact Hs.
Qed.

Lemma strip_sub (P : char -> Prop) (s : str) :
  Forall P s -> Forall P (strip s).
Proof.
  intros H. unfold strip, rstrip.
  apply Forall_rev, lstrip_sub, Forall_rev, lstrip_sub, H.
Qed.

Lemma strip_last (s : str) (c : char) (u : str) :
  strip s = u ++ [c] -> isspace c = false.
Proof.
  unfold strip, rstrip. intros H.
  apply (f_equal (@rev char)) in H.
  rewrite rev_involutive, rev_app_distr in H. simpl in H.
  exact (lstrip_head _ H).
Qed.

Lemma strip_first (s : str) (c : char) (u : str) :
  strip s = c :: u -> isspace c = false.
Proof.
  intros H.
  destruct (lstrip_split (rev (lstrip s))) as (w2 & Hr & _).
  apply (f_equal (@rev char)) in Hr.
  rewrite rev_involutive, rev_app_distr in Hr.
  fold (rstrip (lstrip s)) in Hr. fold (strip s) in Hr.
  rewrite H in Hr. simpl in Hr.
  exact (lstrip_head _ Hr).
Qed.

Lemma strip_unit_ok (p : str) :
  no_sep p -> truthy (strip p) = true -> unit_ok (strip p).
Proof.
  intros Hp Ht. repeat split.
  - intros E. rewrite E in Ht. discriminate.
  - now apply strip_sub.
  - intros c u. apply strip_first.
  - intros c u. apply strip_last.
Qed.

Lemma strip_empty_space (p : str) : truthy (strip p) = false -> space p.
Proof.
  intros Ht. destruct (strip_split p) as (w1 & w2 & Hp & H1 & H2).
  destruct (strip p); [|discriminate].
  rewrite Hp. simpl. now apply Forall_app.
Qed.

Lemma space_gap (w : str) : space w -> gap w.
Proof. apply Forall_impl. auto. Qed.

Lemma seps_gap (r : str) : Forall (fun c => is_sep c = true) r -> gap r.
Proof. apply Forall_impl. auto. Qed.

Lemma gap_app (g1 g2 : str) : gap g1 -> gap g2 -> gap (g1 ++ g2).
Proof. intros. now apply Forall_app. Qed.

Lemma splits_gap_app (g0 t : str) (us : list str) :
  gap g0 -> splits t us -> splits (g0 ++ t) us.
Proof.
  intros Hg H. destruct H.
  - apply splits_nil. now apply gap_app.
  - rewrite app_assoc. apply splits_cons; auto using gap_app.
Qed.

Lemma seps_sep_first (r t : str) :
  r <> [] -> Forall (fun c => is_sep c = true) r -> sep_first (r ++ t).
Proof.
  intros Hr H. destruct H as [|c r Hc _]; [contradiction|].
  right. exists c, (r ++ t). auto.
Qed.

Lemma pieces_splits (s : str) (ps : list str) :
  pieces s ps ->
  splits s (map strip (filter (fun p => truthy (strip p)) ps)).
Proof.
  induction 1 as [p Hp | p r t ps Hp Hr Hseps Hps IH]; simpl.
  - destruct (truthy (strip p)) eqn:Ht; simpl.
    + destruct (strip_split p) as (w1 & w2 & E & H1 & H2).
      rewrite E at 1. rewrite <- (app_nil_r w2).
      apply splits_cons; auto using space_gap, strip_unit_ok.
      * now left.
      * apply splits_nil. constructor.
    + apply splits_nil, space_gap, strip_empty_space, Ht.
  - destruct (truthy (strip p)) eqn:Ht; simpl.
    + destruct (strip_split p) as (w1 & w2 & E & H1 & H2).
      rewrite E at 1. rewrite <- !app_assoc.
      apply splits_cons; auto using space_gap, strip_unit_ok, seps_sep_first.
      apply splits_gap_app; auto using seps_gap.
    + apply splits_gap_app.
      * apply space_gap, strip_empty_space, Ht.
      * apply splits_gap_app; auto using seps_gap.
Qed.

(** The units [mock_generate] works on are the sentence-like units of the
    notes. *)
Lemma sentences_splits (notes : str) : splits notes (sentences notes).
Proof. apply pieces_splits, re_split_pieces. Qed.

Lemma splits_units_ok (t : str) (us : list str) :
  splits t us -> Forall unit_ok us.
Proof. induction 1; constructor; auto. Qed.

Lemma splits_no_units (t : str) : splits t [] -> gap t.
Proof. now inversion 1. Qed.

(** [splits] determines the units: a text has one list of sentence-like
    units. *)
Lemma unit_starts_word (u r : str) : unit_ok u -> starts_word (u ++ r).
Proof.
  intros (Hne & Hsep & Hfirst & _). destruct u as [|c u]; [contradiction|].
  exists c, (u ++ r). repeat split.
  - now inversion Hsep.
  - exact (Hfirst c u eq_refl).
Qed.

Lemma gap_not_word (g : str) : gap g -> ~ starts_word g.
Proof.
  intros Hg (c & y & -> & Hs & Hw). inversion Hg as [|? ? [H|H] _]; congruence.
Qed.

Lemma gap_prefix_unique (g g' x x' : str) :
  gap g -> gap g' -> starts_word x -> starts_word x' ->
  g ++ x = g' ++ x' -> g = g' /\ x = x'.
Proof.
  revert g'. induction g as [|c g IH]; intros g' Hg Hg' Hx Hx' E.
  - destruct g' as [|c' g']; [auto|]. exfalso.
    simpl in E. destruct Hx as (d & y & -> & Hs & Hw).
    injection E as -> _. inversion Hg' as [|? ? [H|H] _]; congruence.
  - destruct g' as [|c' g'].
    + exfalso. simpl in E. destruct Hx' as (d & y & -> & Hs & Hw).
      injection E as -> _. inversion Hg as [|? ? [H|H] _]; congruence.
    + simpl in E. injection E as -> E.
      inversion Hg; inversion Hg'; subst.
      destruct (IH g') as [-> ->]; auto.
Qed.

(** A word that ends on a character that is not white space cannot run
    into what follows a unit. *)
Lemma no_overrun (w z r t : str) :
  z <> [] -> no_sep z ->
  (forall c z', z = z' ++ [c] -> isspace c = false) ->
  space w -> sep_first t -> z ++ r = w ++ t -> False.
Proof.
  revert z. induction w as [|x w IH]; intros z Hne Hsep Hlast Hw Ht E.
  - destruct z as [|c z]; [contradiction|]. simpl in E.
    destruct Ht as [-> | (d & t' & -> & Hd)]; [discriminate|].
    injection E as -> _. inversion Hsep. congruence.
  - destruct z as [|c z]; [contradiction|]. simpl in E. injection E as -> E.
    inversion Hw as [|? ? Hx Hw']. subst.
    destruct z as [|d z].
    + rewrite (Hlast x [] eq_refl) in Hx. discriminate.
    + apply (IH (d :: z)); auto.
      * discriminate.
      * now inversion Hsep.
      * intros c z' Ez. apply (Hlast c (x :: z')). simpl. now rewrite Ez.
Qed.

Lemma unit_prefix_unique (u u' r r' : str) :
  unit_ok u -> unit_ok u' -> after_unit r -> after_unit r' ->
  u ++ r = u' ++ r' -> u = u' /\ r = r'.
Proof.
  intros Hu Hu' (w & t & -> & Hw & Ht) (w' & t' & -> & Hw' & Ht') E.
  apply app_eq_app in E. destruct E as (z & [[E1 E2] | [E1 E2]]).
  - destruct z as [|c z]; [rewrite app_nil_r in E1; simpl in E2; auto|].
    exfalso. destruct Hu as (_ & Hsep & _ & Hlast). subst u.
    apply Forall_app in Hsep as [_ Hz].
    apply (@no_overrun w' (c :: z) (w ++ t) t'); auto; try discriminate.
    intros d z' Ez. apply (Hlast d (u' ++ z')).
    now rewrite Ez, app_assoc.
  - destruct z as [|c z]; [rewrite app_nil_r in E1; simpl in E2; auto|].
    exfalso. destruct Hu' as (_ & Hsep & _ & Hlast). subst u'.
    apply Forall_app in Hsep as [_ Hz].
    apply (@no_overrun w (c :: z) (w' ++ t') t); auto; try discriminate.
    intros d z' Ez. apply (Hlast d (u ++ z')).
    now rewrite Ez, app_assoc.
Qed.

Lemma splits_unique_bounded (n : nat) (t : str) (us us' : list str) :
  (List.length t <= n)%nat -> splits t us -> splits t us' -> us = us'.
Proof.
  revert t us us'. induction n as [|n IH]; intros t us us' Hlen H H'.
  - destruct t; [|simpl in Hlen; lia].
    inversion H as [|g u w r us1 _ Hu _ _ _ E]; subst.
    + inversion H' as [|g u w r us1 _ Hu _ _ _ E]; subst; [reflexivity|].
      destruct Hu as [Hne _]. destruct g, u; try discriminate. contradiction.
    + destruct Hu as [Hne _]. destruct g, u; try discriminate. contradiction.
  - inversion H as [g Hg | g u w r us1 Hg Hu Hw Hr Hs E]; subst.
    + inversion H' as [|g' u' w' r' us1' Hg' Hu' Hw' Hr' Hs' E']; subst;
        [reflexivity|].
      exfalso. apply Forall_app in Hg as [_ Hg].
      exact (gap_not_word Hg (unit_starts_word (w' ++ r') Hu')).
    + inversion H' as [g' Hg' | g' u' w' r' us1' Hg' Hu' Hw' Hr' Hs' E'].
      * exfalso. subst. apply Forall_app in Hg' as [_ Hg'].
        exact (gap_not_word Hg' (unit_starts_word (w ++ r) Hu)).
      * subst. symmetry in E'.
        apply gap_prefix_unique in E' as [-> E']; auto using unit_starts_word.
        apply unit_prefix_unique in E' as [-> E']; auto;
          try (eexists; eexists; split; [reflexivity | split; assumption]).
        f_equal.
        apply (IH (w ++ r)).
        -- destruct Hu' as [Hne _]. destruct u'; [contradiction|].
           rewrite !length_app in Hlen. simpl in Hlen.
           rewrite length_app. lia.
        -- apply splits_gap_app; auto using space_gap.
        -- rewrite E'. apply splits_gap_app; auto using space_gap.
Qed.

Lemma splits_unique (t : str) (us us' : list str) :
  splits t us -> splits t us' -> us = us'.
Proof. apply (@splits_unique_bounded (List.length t)). lia. Qed.

(** The units of [mock_generate] are the only list [splits] allows. *)
Lemma splits_sentences (notes : str) (units : list str) :
  splits notes units <-> units = sentences notes.
Proof.
  split.
  - intros H. exact (splits_unique H (sentences_splits notes)).
  - intros ->. apply sentences_splits.
Qed.

(** ** Reading the log *)

Lemma count_app (f : event -> bool) (l1 l2 : list event) :
  count f (l1 ++ l2) = (count f l1 + count f l2)%nat.
Proof. unfold count. now rewrite filter_app, length_app. Qed.

Lemma calls_app (l1 l2 : list event) : calls (l1 ++ l2) = calls l1 ++ calls l2.
Proof.
  induction l1 as [|ev l1 IH]; simpl; [reflexivity|].
  destruct (callee_of ev); simpl; now rewrite IH.
Qed.

(** ** The parser *)

















(** The two tiers of [safe_json_parse] on a text. *)
Lemma safe_json_parse_tiers (s : str) :
  safe_json_parse (VStr s)
  = match Json.decode s with
    | Some v => ([], Ok v)
    | None =>
        match bracketed s with
        | Some t =>
            match Json.decode t with
            | Some v => ([], Ok v)
            | None => ([warning], Ok (VList []))
            end
        | None => ([warning], Ok (VList []))
        end
    end.
Proof.
  unfold safe_json_parse, bracket_scan, bracketed. simpl.
  destruct (Json.decode s); [reflexivity|].
  destruct (negb _ && negb _ && _)%bool; [|reflexivity].
  simpl. destruct (Json.decode _); reflexivity.
Qed.




Lemma safe_json_parse_log (raw : value) :
  fst (safe_json_parse raw) = [] \/ fst (safe_json_parse raw) = [warning].
Proof.
  destruct raw; try (left; reflexivity).
  rewrite safe_json_parse_tiers.
  destruct (Json.decode s); [now left|].
  destruct (bracketed s) as [t|]; [|now right].
  destruct (Json.decode t); [now left | now right].
Qed.

Lemma safe_json_parse_calls (raw : value) : calls (fst (safe_json_parse raw)) = [].
Proof. destruct (safe_json_parse_log raw) as [-> | ->]; reflexivity. Qed.

Lemma safe_json_parse_count (f : event -> bool) (raw : value) :
  f warning = false -> count f (fst (safe_json_parse raw)) = 0%nat.
Proof.
  intros Hf. unfold count.
  destruct (safe_json_parse_log raw) as [-> | ->]; simpl; [|rewrite Hf]; reflexivity.
Qed.

(** ** One attempt on an engine *)

Lemma try_llamacpp_generate_run (W : backends) (notes p : str) (n : Z) :
  try_llamacpp_generate W notes p n
  = let prompt := get_prompt notes n in
    match load W LlamaCpp p with
    | Raise e => ([Load LlamaCpp p], Raise e)
    | Ok _ =>
        match generate W LlamaCpp p prompt with
        | Raise e => ([Load LlamaCpp p; Generate LlamaCpp p prompt], Raise e)
        | Ok raw =>
            ([Load LlamaCpp p; Generate LlamaCpp p prompt]
               ++ fst (safe_json_parse raw),
             snd (safe_json_parse raw))
        end
    end.
Proof.
  unfold try_llamacpp_generate, call_load, call_generate.
  generalize (get_prompt notes n). intros prompt. cbv zeta.
  destruct (load W LlamaCpp p); [|reflexivity].
  destruct (generate W LlamaCpp p prompt) as [raw|e]; [|reflexivity].
  unfold bind, tell, ret. destruct (safe_json_parse raw) as [log r].
  reflexivity.
Qed.

Lemma first_candidate_log (raw : value) : fst (first_candidate raw) = [].
Proof. destruct raw as [| | | | |[|c l]|[|c l]|]; reflexivity. Qed.

Lemma try_gpt4all_generate_run (W : backends) (notes p : str) (n : Z) :
  try_gpt4all_generate W notes p n
  = let prompt := get_prompt notes n in
    match load W GPT4All p with
    | Raise e => ([Load GPT4All p], Raise e)
    | Ok _ =>
        match generate W GPT4All p prompt with
        | Raise e => ([Load GPT4All p; Generate GPT4All p prompt], Raise e)
        | Ok raw =>
            match snd (first_candidate raw) with
            | Raise e => ([Load GPT4All p; Generate GPT4All p prompt], Raise e)
            | Ok c =>
                ([Load GPT4All p; Generate GPT4All p prompt]
                   ++ fst (safe_json_parse c),
                 snd (safe_json_parse c))
            end
        end
    end.
Proof.
  unfold try_gpt4all_generate, call_load, call_generate.
  generalize (get_prompt notes n). intros prompt. cbv zeta.
  destruct (load W GPT4All p); [|reflexivity].
  destruct (generate W GPT4All p prompt) as [raw|e]; [|reflexivity].
  pose proof (first_candidate_log raw) as Hlog. unfold bind, tell, ret.
  destruct (first_candidate raw) as [log [c|e]]; simpl in Hlog; subst log;
    [|reflexivity].
  simpl snd. cbv beta iota. destruct (safe_json_parse c) as [log r].
  reflexivity.
Qed.

Ltac attempt_facts :=
  split; cbn [fst];
  [ unfold attempts | unfold generations | | unfold heuristic_calls ];
  rewrite ?count_app, ?calls_app, ?safe_json_parse_calls,
    ?safe_json_parse_count by reflexivity;
  first [ reflexivity
        | now exists 1%nat
        | now exists 2%nat
        | unfold count; simpl; lia ].

Lemma try_llamacpp_generate_attempt (W : backends) (notes p : str) (n : Z) :
  attempt_on LlamaCpp (fst (try_llamacpp_generate W notes p n)).
Proof.
  rewrite try_llamacpp_generate_run. cbv zeta.
  generalize (get_prompt notes n). intros prompt.
  destruct (load W LlamaCpp p);
    [destruct (generate W LlamaCpp p prompt) as [raw|e]|];
    attempt_facts.
Qed.

Lemma try_gpt4all_generate_attempt (W : backends) (notes p : str) (n : Z) :
  attempt_on GPT4All (fst (try_gpt4all_generate W notes p n)).
Proof.
  rewrite try_gpt4all_generate_run. cbv zeta.
  generalize (get_prompt notes n). intros prompt.
  destruct (load W GPT4All p);
    [destruct (generate W GPT4All p prompt) as [raw|e];
     [destruct (snd (first_candidate raw)) as [c|e]|]|];
    attempt_facts.
Qed.

(** ** The chain *)

Lemma generate_qa_from_notes_run (W : backends) (notes : str) (n : Z)
  (lp gp : option str) :
  let a1 := try_llamacpp_generate W notes (path_of lp) n in
  let a2 := try_gpt4all_generate W notes (path_of gp) n in
  generate_qa_from_notes W notes n lp gp
  = ((if configured lp
      then attempt_log "Trying LlamaCpp model..." "LlamaCpp failed:" a1
      else [])
     ++ (if configured gp && fell lp a1
         then attempt_log "Trying GPT4All model..." "GPT4All failed:" a2
         else [])
     ++ (if fell lp a1 && fell gp a2 then heuristic_log notes n else []),
     if fell lp a1
     then if fell gp a2 then Ok (VList (mock_generate notes n)) else snd a2
     else snd a1).
Proof.
  unfold generate_qa_from_notes, fell, raisesb, attempt_log, heuristic_log.
  generalize (mock_generate notes n). intros records.
  generalize (try_llamacpp_generate W notes (path_of lp) n).
  generalize (try_gpt4all_generate W notes (path_of gp) n).
  intros [l2 [v2|e2]] [l1 [v1|e1]]; cbv zeta;
    destruct (configured lp), (configured gp); simpl;
    rewrite ?app_nil_r, <- ?app_assoc; reflexivity.
Qed.

Lemma count_attempt_log (f : event -> bool) (trying failed : string)
  (a : M value) :
  (forall msg e, f (Print msg e) = false) ->
  count f (attempt_log trying failed a) = count f (fst a).
Proof.
  intros Hf. unfold attempt_log, count. simpl. rewrite Hf, filter_app, length_app.
  destruct (snd a); simpl; rewrite ?Hf; simpl; lia.
Qed.

Lemma calls_attempt_log (trying failed : string) (a : M value) :
  calls (attempt_log trying failed a) = calls (fst a).
Proof.
  unfold attempt_log. simpl. rewrite calls_app.
  destruct (snd a); simpl; now rewrite app_nil_r.
Qed.

Lemma fell_false (path : option str) (a : M value) :
  fell path a = false -> configured path = true /\ exists v, snd a = Ok v.
Proof.
  unfold fell, raisesb. destruct (configured path); simpl; [|discriminate].
  destruct (snd a); [eauto | discriminate].
Qed.

(** The chain returns for every engine behaviour: whatever an attempt
    raises is caught, and the heuristic generator is total. *)
Lemma generate_qa_from_notes_returns (W : backends) (notes : str) (n : Z)
  (lp gp : option str) :
  exists v, snd (generate_qa_from_notes W notes n lp gp) = Ok v.
Proof.
  rewrite generate_qa_from_notes_run. cbv zeta. simpl snd.
  destruct (fell lp _) eqn:F1.
  - destruct (fell gp _) eqn:F2; [eauto|].
    apply fell_false in F2. tauto.
  - apply fell_false in F1. tauto.
Qed.

(** ** QA records *)

Lemma contains_here (x rest : str) : contains x (x ++ rest).
Proof. now exists [], rest. Qed.

Lemma contains_refl (x : str) : contains x x.
Proof. exists [], []. now rewrite app_nil_r. Qed.

Lemma contains_skip (x a rest : str) : contains x rest -> contains x (a ++ rest).
Proof.
  intros (l & r & ->). exists (a ++ l), r. now rewrite <- app_assoc.
Qed.

Ltac find_segment :=
  solve [ repeat first [ apply contains_here | apply contains_refl
                       | apply contains_skip ] ].

Lemma slice_to_firstn {A} (l : list A) (k : nat) :
  slice_to l (Z.of_nat k) = firstn k l.
Proof. rewrite slice_to_nonneg by lia. now rewrite Nat2Z.id. Qed.

Lemma question_of_contains (u : str) : contains (firstn 40 u) (question_of u).
Proof.
  unfold question_of. change 40%Z with (Z.of_nat 40).
  rewrite slice_to_firstn. find_segment.
Qed.

Lemma answer_of_contains (u : str) : contains (firstn 80 u) (answer_of u).
Proof.
  unfold answer_of. change 80%Z with (Z.of_nat 80).
  rewrite slice_to_firstn. find_segment.
Qed.

Lemma question_of_nonempty (u : str) : question_of u <> [].
Proof. unfold question_of. discriminate. Qed.

Lemma answer_of_nonempty (u : str) : answer_of u <> [].
Proof. unfold answer_of. discriminate. Qed.

(* ================================================================== *)
(** * The claims *)
(* ================================================================== *)

(** C5: the chain tries LlamaCpp when it is configured, then GPT4All when it
    is configured and the first step fell through, each at most once (one
    constructor call, at most one generation call); every engine call of
    LlamaCpp precedes every call of GPT4All, which precede the heuristic
    generator; whatever an attempt raises, the chain goes on and returns;
    the heuristic generator is called, once, if and only if each engine is
    unconfigured or its attempt raised, and the result is the one of the
    first step that did not fall through. *)
Theorem fallback_chain_order (W : backends) (notes : str) (n : Z)
  (lp gp : option str) :
  let a1 := try_llamacpp_generate W notes (path_of lp) n in
  let a2 := try_gpt4all_generate W notes (path_of gp) n in
  let run := generate_qa_from_notes W notes n lp gp in
  attempts LlamaCpp (fst run) = (if configured lp then 1 else 0)%nat
  /\ (generations LlamaCpp (fst run) <= 1)%nat
  /\ attempts GPT4All (fst run)
     = (if configured gp && fell lp a1 then 1 else 0)%nat
  /\ (generations GPT4All (fst run) <= 1)%nat
  /\ heuristic_calls (fst run) = (if fell lp a1 && fell gp a2 then 1 else 0)%nat
  /\ (exists k1 k2 k3,
        calls (fst run)
        = repeat (Engine LlamaCpp) k1 ++ repeat (Engine GPT4All) k2
            ++ repeat Mock k3)
  /\ snd run
     = (if fell lp a1
        then if fell gp a2 then Ok (VList (mock_generate notes n)) else snd a2
        else snd a1)
  /\ raisesb run = false.
Proof.
  intros a1 a2 run. unfold run. clear run.
  rewrite generate_qa_from_notes_run. fold a1 a2. cbv zeta. simpl fst. simpl snd.
  destruct (try_llamacpp_generate_attempt W notes (path_of lp) n)
    as [L1 G1 [k1 C1] H1].
  destruct (try_gpt4all_generate_attempt W notes (path_of gp) n)
    as [L2 G2 [k2 C2] H2].
  fold a1 in L1, G1, C1, H1. fold a2 in L2, G2, C2, H2.
  assert (X12 : attempts LlamaCpp (fst a2) = 0%nat /\ generations LlamaCpp (fst a2) = 0%nat).
  { unfold attempts, generations, count. clear - C2.
    revert k2 C2. induction (fst a2) as [|ev l IH]; intros k2 C2; [auto|].
    simpl in *. destruct ev as [m e|[|] mp|[|] mp pr|nt nq]; simpl in *; eauto.
    - destruct k2; discriminate.
    - destruct k2; [discriminate|]. injection C2 as C2. eauto.
    - destruct k2; discriminate.
    - destruct k2; [discriminate|]. injection C2 as C2. eauto.
    - destruct k2; discriminate. }
  assert (X21 : attempts GPT4All (fst a1) = 0%nat /\ generations GPT4All (fst a1) = 0%nat).
  { unfold attempts, generations, count. clear - C1.
    revert k1 C1. induction (fst a1) as [|ev l IH]; intros k1 C1; [auto|].
    simpl in *. destruct ev as [m e|[|] mp|[|] mp pr|nt nq]; simpl in *; eauto.
    - destruct k1; [discriminate|]. injection C1 as C1. eauto.
    - destruct k1; discriminate.
    - destruct k1; [discriminate|]. injection C1 as C1. eauto.
    - destruct k1; discriminate.
    - destruct k1; discriminate. }
  destruct X12 as [L12 G12], X21 as [L21 G21].
  unfold attempts, generations, heuristic_calls in *.
  rewrite !count_app, !calls_app.
  repeat split.
  - destruct (configured lp), (configured gp && fell lp a1)%bool,
      (fell lp a1 && fell gp a2)%bool;
      rewrite ?count_attempt_log by reflexivity; rewrite ?L1, ?L12; reflexivity.
  - destruct (configured lp), (configured gp && fell lp a1)%bool,
      (fell lp a1 && fell gp a2)%bool;
      rewrite ?count_attempt_log by reflexivity; rewrite ?G12;
      cbn [count filter List.length heuristic_log is_generate]; lia.
  - destruct (configured lp), (configured gp && fell lp a1)%bool,
      (fell lp a1 && fell gp a2)%bool;
      rewrite ?count_attempt_log by reflexivity; rewrite ?L2, ?L21; reflexivity.
  - destruct (configured lp), (configured gp && fell lp a1)%bool,
      (fell lp a1 && fell gp a2)%bool;
      rewrite ?count_attempt_log by reflexivity; rewrite ?G21;
      cbn [count filter List.length heuristic_log is_generate]; lia.
  - destruct (configured lp), (configured gp && fell lp a1)%bool,
      (fell lp a1 && fell gp a2)%bool;
      rewrite ?count_attempt_log by reflexivity; rewrite ?H1, ?H2; reflexivity.
  - exists (if configured lp then k1 else 0%nat),
      (if (configured gp && fell lp a1)%bool then k2 else 0%nat),
      (if (fell lp a1 && fell gp a2)%bool then 1%nat else 0%nat).
    destruct (configured lp), (configured gp && fell lp a1)%bool,
      (fell lp a1 && fell gp a2)%bool;
      rewrite ?calls_attempt_log, ?C1, ?C2; reflexivity.
  - unfold raisesb. simpl snd.
    destruct (fell lp a1) eqn:F1; [destruct (fell gp a2) eqn:F2|].
    + reflexivity.
    + apply fell_false in F2 as [_ [v ->]]. reflexivity.
    + apply fell_false in F1 as [_ [v ->]]. reflexivity.
Qed.

(** C2: for a positive count the heuristic generator returns exactly that
    many records, and so does the chain when each engine is unconfigured or
    its attempt raised. *)
Theorem heuristic_exact_count (W : backends) (notes : str) (n : Z)
  (lp gp : option str) :
  (0 < n)%Z ->
  len (mock_generate notes n) = n
  /\ (fell lp (try_llamacpp_generate W notes (path_of lp) n) = true ->
      fell gp (try_gpt4all_generate W notes (path_of gp) n) = true ->
      exists records,
        snd (generate_qa_from_notes W notes n lp gp) = Ok (VList records)
        /\ len records = n).
Proof.
  intros Hn.
  assert (Hlen : len (mock_generate notes n) = n).
  { unfold len. rewrite mock_generate_length by lia. lia. }
  split; [exact Hlen|].
  intros F1 F2. exists (mock_generate notes n). split; [|exact Hlen].
  rewrite generate_qa_from_notes_run. cbv zeta. simpl snd.
  now rewrite F1, F2.
Qed.

Lemma heuristic_exact_count_witness :
  len (mock_generate (lit "A. B. C.") 5) = 5%Z
  /\ exists records,
       snd (generate_qa_from_notes (engines missing (Ok tt) crashed crashed)
              (lit "A. B. C.") 5 (Some (lit "llama.gguf")) (Some (lit "orca.gguf")))
       = Ok (VList records)
       /\ len records = 5%Z.
Proof.
  destruct (@heuristic_exact_count (engines missing (Ok tt) crashed crashed)
              (lit "A. B. C.") 5 (Some (lit "llama.gguf")) (Some (lit "orca.gguf")))
    as [H1 H2]; [lia|].
  split; [exact H1|].
  apply H2; vm_compute; reflexivity.
Defined.



(** C8: when the generation call of GPT4All returns a list or a tuple, what
    goes to the parser is its first element (and an empty sequence raises
    [IndexError] before the parser is reached); any other object goes to
    the parser as it is. *)
Theorem gpt4all_first_candidate (W : backends) (notes p : str) (n : Z)
  (raw : value) :
  load W GPT4All p = Ok tt ->
  generate W GPT4All p (get_prompt notes n) = Ok raw ->
  let called := [Load GPT4All p; Generate GPT4All p (get_prompt notes n)] in
  let parsed c :=
    (called ++ fst (safe_json_parse c), snd (safe_json_parse c)) in
  try_gpt4all_generate W notes p n
  = match raw with
    | VList (c :: _) | VTuple (c :: _) => parsed c
    | VList [] | VTuple [] => (called, Raise IndexError)
    | _ => parsed raw
    end.
Proof.
  intros Hload Hgen. rewrite try_gpt4all_generate_run. cbv zeta.
  rewrite Hload, Hgen.
  destruct raw as [| | | | |[|c l]|[|c l]|]; reflexivity.
Qed.

Lemma gpt4all_first_candidate_witness :
  try_gpt4all_generate
    (engines missing (Ok tt) crashed
       (Ok (VList [VStr (lit "[]"); VStr (lit "[1]")])))
    (lit "A. B. C.") (lit "orca.gguf") 3
  = ([Load GPT4All (lit "orca.gguf");
      Generate GPT4All (lit "orca.gguf") (get_prompt (lit "A. B. C.") 3)]
       ++ fst (safe_json_parse (VStr (lit "[]"))),
     snd (safe_json_parse (VStr (lit "[]")))).
Proof.
  apply (@gpt4all_first_candidate
           (engines missing (Ok tt) crashed
              (Ok (VList [VStr (lit "[]"); VStr (lit "[1]")])))
           (lit "A. B. C.") (lit "orca.gguf") 3
           (VList [VStr (lit "[]"); VStr (lit "[1]")]));
    reflexivity.
Defined.


(** C7: for a count that is not negative, with [units] the sentence-like
    units of the notes in their order (what lies between line feeds and
    periods, trimmed, when something is left: the one list [splits]
    allows), there are as many records as the count: record [i] is built
    from unit [i] when there is one (question around its first 40
    characters, answer around its first 80, text the unit itself), and is
    otherwise the canned record, whose text is the first unit or, without
    units, the empty text. *)
Theorem mock_generate_units (notes : str) (n : Z) :
  (0 <= n)%Z ->
  let units := sentences notes in
  (forall us, splits notes us <-> us = units)
  /\ List.length (mock_generate notes n) = Z.to_nat n
  /\ (forall i u,
        (i < Z.to_nat n)%nat -> nth_error units i = Some u ->
        exists question answer,
          nth_error (mock_generate notes n) i = Some (qa question answer u)
          /\ contains (firstn 40 u) question
          /\ contains (firstn 80 u) answer)
  /\ (forall i,
        (List.length units <= i < Z.to_nat n)%nat ->
        nth_error (mock_generate notes n) i
        = Some (qa canned_question canned_answer (hd [] units))).
Proof.
  intros Hn units.
  split; [intros us; apply splits_sentences|].
  split; [now apply mock_generate_length|].
  assert (E : mock_generate notes n
              = map record_of (firstn (Z.to_nat n) units)
                ++ repeat (padding units)
                     (Z.to_nat n - List.length units)).
  { rewrite mock_generate_eq. fold units.
    unfold len. rewrite slice_to_length, slice_to_nonneg by assumption.
    do 2 f_equal. lia. }
  split.
  - intros i u Hi Hu. exists (question_of u), (answer_of u).
    split; [|split; [apply question_of_contains | apply answer_of_contains]].
    rewrite E, nth_error_app1.
    + rewrite nth_error_map, nth_error_firstn.
      destruct (Nat.ltb_spec i (Z.to_nat n)); [|lia].
      rewrite Hu. reflexivity.
    + rewrite length_map, length_firstn.
      assert (i < List.length units)%nat by (apply nth_error_Some; congruence).
      lia.
  - intros i [Hlo Hhi]. rewrite E, nth_error_app2.
    + rewrite length_map, length_firstn, nth_error_repeat by lia.
      unfold padding. destruct units; reflexivity.
    + rewrite length_map, length_firstn. lia.
Qed.

Lemma mock_generate_units_witness :
  let units := sentences (lit "A. B. C.") in
  units = [lit "A"; lit "B"; lit "C"]
  /\ nth_error (mock_generate (lit "A. B. C.") 5) 4
     = Some (qa canned_question canned_answer (lit "A")).
Proof.
  split; [vm_compute; reflexivity|].
  destruct (@mock_generate_units (lit "A. B. C.") 5) as (_ & _ & _ & H);
    [lia|].
  apply (H 4%nat). vm_compute. split; lia.
Defined.

(** C10, as stated, fails: with three units and the count -1 the slice
    [sentences[:-1]] keeps two units, and two records are returned. *)
Lemma negative_count_keeps_units :
  (-1 <= 0)%Z
  /\ mock_generate (lit "A. B. C.") (-1)
     = [record_of (lit "A"); record_of (lit "B")]
  /\ snd (generate_qa_from_notes (engines missing missing crashed crashed)
            (lit "A. B. C.") (-1) None None)
     = Ok (VList [record_of (lit "A"); record_of (lit "B")])
  /\ [record_of (lit "A"); record_of (lit "B")] <> [].
Proof.
  split; [lia|]. split; [vm_compute; reflexivity|].
  split; [vm_compute; reflexivity | discriminate].
Qed.

(** C10, amended: for a count that is not positive, [mock_generate] returns
    without padding: nothing for the count 0 and, for a negative count, the
    records of the units but the last [-count] ones (nothing when there are
    at most [-count] units); with no engine configured the chain returns
    that list and raises nothing. *)
Theorem nonpositive_count (W : backends) (notes : str) (n : Z) :
  (n <= 0)%Z ->
  let units := sentences notes in
  (n = 0%Z -> mock_generate notes n = [])
  /\ (n < 0 ->
      mock_generate notes n
      = map record_of (firstn (List.length units - Z.to_nat (- n)) units))%Z
  /\ (n < 0 ->
      List.length (mock_generate notes n)
      = (List.length units - Z.to_nat (- n))%nat)%Z
  /\ generate_qa_from_notes W notes n None None
     = (heuristic_log notes n, Ok (VList (mock_generate notes n))).
Proof.
  intros Hn units.
  assert (E : mock_generate notes n = map record_of (slice_to units n)).
  { rewrite mock_generate_eq. fold units.
    replace (Z.to_nat (n - len (slice_to units n))) with 0%nat
      by (unfold len; lia).
    simpl. now rewrite app_nil_r. }
  split; [|split; [|split]].
  - intros ->. rewrite E, slice_to_nonneg by lia. reflexivity.
  - intros Hneg. rewrite E, slice_to_neg by assumption. reflexivity.
  - intros Hneg. rewrite E, slice_to_neg, length_map, length_firstn by assumption.
    lia.
  - reflexivity.
Qed.

Lemma nonpositive_count_witness :
  mock_generate (lit "A. B. C.") (-2) = [record_of (lit "A")]
  /\ List.length (mock_generate (lit "A. B. C.") (-2)) = 1%nat.
Proof.
  destruct (@nonpositive_count (engines missing missing crashed crashed)
              (lit "A. B. C.") (-2)) as (_ & H1 & H2 & _); [lia|].
  split; [apply H1 | apply H2]; lia.
Defined.

(** C6, as stated, fails: notes made of periods are not empty, have no
    unit, and the padding record returned for them has an empty text. *)
Lemma padding_text_empty_for_periods :
  let notes := lit "..." in
  let run :=
    generate_qa_from_notes (engines missing missing crashed crashed)
      notes 1 None None in
  snd run = Ok (VList [qa canned_question canned_answer []])
  /\ ~ Forall (filled (notes = [])) [qa canned_question canned_answer []].
Proof.
  split; [vm_compute; reflexivity|].
  intros H. inversion H as [|r l (question & answer & text & E & _ & _ & Ht) _].
  injection E as _ _ <-. specialize (Ht eq_refl). discriminate.
Qed.

Lemma record_of_filled (u : str) (excuse : Prop) :
  u <> [] -> filled excuse (record_of u).
Proof.
  intros Hu. exists (question_of u), (answer_of u), u.
  repeat split; auto using question_of_nonempty, answer_of_nonempty.
  intros E. contradiction.
Qed.

Lemma padding_filled (notes : str) :
  filled (gap notes) (padding (sentences notes)).
Proof.
  pose proof (sentences_splits notes) as Hs.
  exists canned_question, canned_answer, (hd [] (sentences notes)).
  split; [destruct (sentences notes); reflexivity|].
  split; [discriminate|]. split; [discriminate|].
  destruct (sentences notes) as [|u us]; simpl.
  - intros _. now apply splits_no_units.
  - intros ->. apply splits_units_ok in Hs.
    inversion Hs as [|? ? [Hne _] _]. now contradiction Hne.
Qed.

Lemma mock_generate_filled (notes : str) (n : Z) :
  Forall (filled (gap notes)) (mock_generate notes n).
Proof.
  rewrite mock_generate_eq. apply Forall_app. split.
  - apply Forall_map.
    assert (Hu : Forall unit_ok (sentences notes))
      by exact (splits_units_ok (sentences_splits notes)).
    unfold slice_to.
    apply Forall_impl with (P := unit_ok).
    + intros u [Hne _]. now apply record_of_filled.
    + now apply Forall_firstn.
  - apply Forall_forall. intros r Hr. apply repeat_spec in Hr. subst r.
    apply padding_filled.
Qed.

(** C6, amended: when each engine is unconfigured or its attempt raised,
    every record the chain returns has a question and an answer that are
    not empty, and a text that is empty only when the notes hold no
    sentence-like unit, that is, nothing but white space, periods and line
    feeds. *)
Theorem heuristic_records_filled (W : backends) (notes : str) (n : Z)
  (lp gp : option str) :
  fell lp (try_llamacpp_generate W notes (path_of lp) n) = true ->
  fell gp (try_gpt4all_generate W notes (path_of gp) n) = true ->
  exists records,
    snd (generate_qa_from_notes W notes n lp gp) = Ok (VList records)
    /\ Forall (filled (gap notes)) records.
Proof.
  intros F1 F2. exists (mock_generate notes n).
  split; [|apply mock_generate_filled].
  rewrite generate_qa_from_notes_run. cbv zeta. simpl snd.
  now rewrite F1, F2.
Qed.

Lemma heuristic_records_filled_witness :
  exists records,
    snd (generate_qa_from_notes (engines missing (Ok tt) crashed crashed)
           (lit "...") 2 (Some (lit "llama.gguf")) (Some (lit "orca.gguf")))
    = Ok (VList records)
    /\ Forall (filled (gap (lit "..."))) records.
Proof.
  apply (@heuristic_records_filled (engines missing (Ok tt) crashed crashed)
           (lit "...") 2 (Some (lit "llama.gguf")) (Some (lit "orca.gguf")));
    vm_compute; reflexivity.
Defined.


(** C1: whatever the engines do, the chain returns and raises nothing; but
    when LlamaCpp answers [42] it returns the integer 42, which is not a
    list of QA records. *)
Theorem chain_returns_not_always_records :
  (forall W notes n lp gp,
      exists v, snd (generate_qa_from_notes W notes n lp gp) = Ok v)
  /\ snd (generate_qa_from_notes
            (engines (Ok tt) missing (says (lit "42")) crashed)
            (lit "A. B. C.") 3 (Some (lit "llama.gguf")) None)
     = Ok (VInt 42)
  /\ is_qa_list (VInt 42) = false.
Proof.
  split; [exact generate_qa_from_notes_returns|].
  split; vm_compute; reflexivity.
Qed.

(* ================================================================== *)
(** * Further properties of the heuristic generator *)
(* ================================================================== *)

Lemma mock_generate_nonneg (notes : str) (n : Z) :
  (0 <= n)%Z ->
  mock_generate notes n
  = map record_of (firstn (Z.to_nat n) (sentences notes))
    ++ repeat (padding (sentences notes))
         (Z.to_nat n - List.length (sentences notes)).
Proof.
  intros Hn. rewrite mock_generate_eq.
  unfold len. rewrite slice_to_length, slice_to_nonneg by assumption.
  do 2 f_equal. lia.
Qed.

Lemma firstn_repeat {A} (x : A) (k j : nat) :
  firstn k (repeat x j) = repeat x (Nat.min k j).
Proof.
  revert j. induction k as [|k IH]; intros [|j]; simpl; try reflexivity.
  now rewrite IH.
Qed.

Lemma splits_contains (t : str) (us : list str) :
  splits t us -> Forall (fun u => contains u t) us.
Proof.
  induction 1 as [|g u w t us Hg Hu Hw Ht Hs IH]; constructor.
  - apply contains_skip, contains_here.
  - eapply Forall_impl; [|exact IH].
    intros x Hx. now do 3 apply contains_skip.
Qed.

Lemma contains_empty (t : str) : contains [] t.
Proof. now exists [], t. Qed.

Lemma sentences_contained (notes : str) :
  Forall (fun u => contains u notes) (sentences notes).
Proof. exact (splits_contains (sentences_splits notes)). Qed.

(** X1: the text of every record of the heuristic generator, for any
    count, is an excerpt of the notes: the notes are some text, then the
    record's text, then some text. *)
Theorem mock_generate_text_excerpt (notes : str) (n : Z) :
  Forall (fun r => exists question answer text,
              r = qa question answer text /\ contains text notes)
    (mock_generate notes n).
Proof.
  pose proof (sentences_contained notes) as Hc.
  rewrite mock_generate_eq. apply Forall_app. split.
  - apply Forall_map. unfold slice_to.
    eapply Forall_impl; [|apply Forall_firstn; exact Hc].
    intros u Hu. exists (question_of u), (answer_of u), u. now split.
  - apply Forall_forall. intros r Hr. apply repeat_spec in Hr. subst r.
    exists canned_question, canned_answer, (hd [] (sentences notes)).
    split; [destruct (sentences notes); reflexivity|].
    destruct Hc as [|u us Hu _]; [apply contains_empty | exact Hu].
Qed.

Lemma question_of_length (u : str) :
  List.length (question_of u) = (31 + Nat.min 40 (List.length u))%nat.
Proof.
  unfold question_of. change 40%Z with (Z.of_nat 40).
  rewrite slice_to_firstn, !length_app, length_firstn.
  change (List.length (lit "What is the main idea of: '")) with 27%nat.
  change (List.length (lit "...'")) with 4%nat. lia.
Qed.

Lemma answer_of_length (u : str) :
  List.length (answer_of u) = (23 + Nat.min 80 (List.length u))%nat.
Proof.
  unfold answer_of. change 80%Z with (Z.of_nat 80).
  rewrite slice_to_firstn, !length_app, length_firstn.
  change (List.length (lit "The main idea is that ")) with 22%nat.
  change (List.length (lit ".")) with 1%nat. lia.
Qed.

(** X2: the question built from a unit has 31 characters more than the
    unit, or 71 when the unit has more than 40; the answer has 23 more, or
    103 when the unit has more than 80; so every record of the heuristic
    generator, padding included, has a question of at most 71 characters
    and an answer of at most 103. *)
Theorem mock_generate_lengths (notes : str) (n : Z) :
  (forall u, List.length (question_of u)
             = (31 + Nat.min 40 (List.length u))%nat
             /\ List.length (answer_of u)
                = (23 + Nat.min 80 (List.length u))%nat)
  /\ Forall (fun r => exists question answer text,
                 r = qa question answer text
                 /\ (List.length question <= 71)%nat
                 /\ (List.length answer <= 103)%nat)
       (mock_generate notes n).
Proof.
  split; [intros u; split; [apply question_of_length | apply answer_of_length]|].
  rewrite mock_generate_eq. apply Forall_app. split.
  - apply Forall_map, Forall_forall. intros u _.
    exists (question_of u), (answer_of u), u.
    rewrite question_of_length, answer_of_length. repeat split; lia.
  - apply Forall_forall. intros r Hr. apply repeat_spec in Hr. subst r.
    exists canned_question, canned_answer, (hd [] (sentences notes)).
    split; [destruct (sentences notes); reflexivity|].
    split; vm_compute; lia.
Qed.

(** X3: asking for fewer records gives the first records of what asking for
    more gives: for counts 0 <= n <= m, the records for [n] are the first
    [n] of the records for [m]. *)
Theorem mock_generate_prefix (notes : str) (n m : Z) :
  (0 <= n <= m)%Z ->
  mock_generate notes n = firstn (Z.to_nat n) (mock_generate notes m).
Proof.
  intros [Hn Hm]. rewrite !mock_generate_nonneg by lia.
  set (units := sentences notes). set (pad := padding units).
  rewrite firstn_app, length_map, length_firstn, firstn_map, firstn_firstn,
    firstn_repeat.
  replace (Nat.min (Z.to_nat n) (Z.to_nat m)) with (Z.to_nat n) by lia.
  do 2 f_equal. lia.
Qed.

Lemma mock_generate_prefix_witness :
  mock_generate (lit "A. B. C.") 2
  = firstn 2 (mock_generate (lit "A. B. C.") 5).
Proof. apply (@mock_generate_prefix (lit "A. B. C.") 2 5). lia. Defined.

(** Units of a text cut at a separator. *)
Lemma splits_app (a b : str) (c : char) (us vs : list str) :
  is_sep c = true -> splits a us -> splits b vs ->
  splits (a ++ c :: b) (us ++ vs).
Proof.
  intros Hc Ha Hb. induction Ha as [g Hg | g u w t us Hg Hu Hw Ht Hs IH].
  - simpl. replace (g ++ c :: b) with ((g ++ [c]) ++ b)
      by (rewrite <- app_assoc; reflexivity).
    apply splits_gap_app; [|exact Hb].
    apply gap_app; [exact Hg | constructor; [now left | constructor]].
  - simpl. rewrite <- !app_assoc.
    apply splits_cons; auto.
    destruct Ht as [-> | (d & t' & -> & Hd)]; right.
    + exists c, b. now split.
    + exists d, (t' ++ c :: b). now split.
Qed.

(** X4: the units of a text that holds a line feed or a period are the
    units of what is before it, then the units of what is after it. *)
Theorem sentences_app_sep (a b : str) (c : char) :
  is_sep c = true -> sentences (a ++ c :: b) = sentences a ++ sentences b.
Proof.
  intros Hc. symmetry. apply splits_sentences.
  apply splits_app; auto using sentences_splits.
Qed.

Lemma sentences_app_sep_witness :
  sentences (lit "A. B" ++ NL :: lit " C ")
  = sentences (lit "A. B") ++ sentences (lit " C ").
Proof. apply (@sentences_app_sep (lit "A. B") (lit " C ") NL). reflexivity. Defined.

Lemma rejoin_splits (us : list str) :
  Forall unit_ok us -> splits (rejoin us) us.
Proof.
  induction 1 as [|u us Hu Hus IH]; unfold rejoin; simpl.
  - apply splits_nil. constructor.
  - fold (rejoin us). rewrite <- app_assoc.
    change (u ++ lit ". " ++ rejoin us)
      with ([] ++ u ++ [] ++ (DOT :: 32%N :: rejoin us)).
    apply splits_cons; [constructor | exact Hu | constructor | |].
    + right. exists DOT, (32%N :: rejoin us). now split.
    + change (DOT :: 32%N :: rejoin us) with ([DOT; 32%N] ++ rejoin us).
      apply splits_gap_app; [|exact IH].
      constructor; [now left | constructor; [now right | constructor]].
Qed.

(** X5: the units survive being written out and read again: the text made
    of the units of any notes, each followed by a period and a space, has
    the same units. *)
Theorem sentences_rejoin (notes : str) :
  sentences (rejoin (sentences notes)) = sentences notes.
Proof.
  symmetry. apply splits_sentences, rejoin_splits.
  exact (splits_units_ok (sentences_splits notes)).
Qed.

Lemma sentences_nil_iff (notes : str) : sentences notes = [] <-> gap notes.
Proof.
  split.
  - intros E. apply splits_no_units. rewrite <- E. apply sentences_splits.
  - intros Hg. symmetry. apply splits_sentences. now apply splits_nil.
Qed.

(** X6: the notes have no unit exactly when they hold nothing but white
    space, periods and line feeds; for such notes and a count that is not
    negative, the heuristic generator returns that many copies of the canned
    record with an empty text; for any other notes no record it returns, for
    any count, has an empty text. *)
Theorem blank_notes (notes : str) (n : Z) :
  (sentences notes = [] <-> gap notes)
  /\ (gap notes -> (0 <= n)%Z ->
      mock_generate notes n
      = repeat (qa canned_question canned_answer []) (Z.to_nat n))
  /\ (~ gap notes ->
      Forall (fun r => exists question answer text,
                  r = qa question answer text /\ text <> [])
        (mock_generate notes n)).
Proof.
  split; [apply sentences_nil_iff|]. split.
  - intros Hg Hn. apply sentences_nil_iff in Hg.
    rewrite mock_generate_nonneg, Hg by assumption.
    rewrite firstn_nil. simpl. now rewrite Nat.sub_0_r.
  - intros Hg.
    eapply Forall_impl; [|apply (mock_generate_filled notes n)].
    intros r (question & answer & text & -> & _ & _ & Ht).
    exists question, answer, text. split; [reflexivity|].
    intros E. apply Hg. now apply Ht.
Qed.

(* ================================================================== *)
(** * Further properties of the parser and of the chain *)
(* ================================================================== *)

Lemma unparsable_dec (s : str) : unparsable s \/ ~ unparsable s.
Proof.
  unfold unparsable.
  destruct (Json.decode s); [right; intros [H _]; discriminate|].
  destruct (bracketed s) as [t|]; [|left; auto].
  destruct (Json.decode t); [right; intros [_ H]; discriminate | left; auto].
Qed.







Lemma configured_path (path : option str) :
  configured path = true -> path = Some (path_of path).
Proof. destruct path; [reflexivity | discriminate]. Qed.

Lemma safe_json_parse_sent (notes : str) (n : Z) (lp gp : option str)
  (raw : value) :
  Forall (sent_ok notes n lp gp) (fst (safe_json_parse raw)).
Proof.
  destruct (safe_json_parse_log raw) as [-> | ->]; repeat constructor.
Qed.

Lemma try_llamacpp_generate_sent (W : backends) (notes : str) (n : Z)
  (lp gp : option str) :
  configured lp = true ->
  Forall (sent_ok notes n lp gp)
    (fst (try_llamacpp_generate W notes (path_of lp) n)).
Proof.
  intros Hc. pose proof (configured_path _ Hc) as Hp.
  rewrite try_llamacpp_generate_run. cbv zeta.
  destruct (load W LlamaCpp (path_of lp));
    [destruct (generate W LlamaCpp (path_of lp) (get_prompt notes n))|];
    cbn [fst]; rewrite ?Forall_app; repeat split;
    repeat (constructor; simpl; auto); apply safe_json_parse_sent.
Qed.

Lemma try_gpt4all_generate_sent (W : backends) (notes : str) (n : Z)
  (lp gp : option str) :
  configured gp = true ->
  Forall (sent_ok notes n lp gp)
    (fst (try_gpt4all_generate W notes (path_of gp) n)).
Proof.
  intros Hc. pose proof (configured_path _ Hc) as Hp.
  rewrite try_gpt4all_generate_run. cbv zeta.
  destruct (load W GPT4All (path_of gp));
    [destruct (generate W GPT4All (path_of gp) (get_prompt notes n)) as [raw|];
     [destruct (snd (first_candidate raw))|]|];
    cbn [fst]; rewrite ?Forall_app; repeat split;
    repeat (constructor; simpl; auto); apply safe_json_parse_sent.
Qed.

Lemma attempt_log_sent (notes : str) (n : Z) (lp gp : option str)
  (trying failed : string) (a : M value) :
  Forall (sent_ok notes n lp gp) (fst a) ->
  Forall (sent_ok notes n lp gp) (attempt_log trying failed a).
Proof.
  intros H. unfold attempt_log. constructor; [exact I|].
  apply Forall_app. split; [exact H|].
  destruct (snd a); repeat constructor.
Qed.

(** X10: whatever the engines do, the chain calls an engine only when its
    path is configured, always with that path, and gives it the prompt of
    the notes and the count it received, unchanged; when it calls the
    heuristic generator, it is with the same notes and count. *)
Theorem engines_get_the_prompt (W : backends) (notes : str) (n : Z)
  (lp gp : option str) :
  Forall (sent_ok notes n lp gp)
    (fst (generate_qa_from_notes W notes n lp gp)).
Proof.
  rewrite generate_qa_from_notes_run. cbv zeta. cbn [fst].
  repeat (apply Forall_app; split).
  - destruct (configured lp) eqn:Clp; [|constructor].
    apply attempt_log_sent. now apply try_llamacpp_generate_sent.
  - destruct (configured gp) eqn:Cgp; simpl; [|constructor].
    destruct (fell lp _); [|constructor].
    apply attempt_log_sent. now apply try_gpt4all_generate_sent.
  - destruct (fell lp _ && fell gp _)%bool; repeat constructor.
Qed.

(* ================================================================== *)
(** * Properties of the endpoint *)
(* ================================================================== *)

Lemma questions_items (notes : value) (elements items : list value) :
  Server.questions notes elements = Server.Return items ->
  Forall2 (fun r it => exists g, generated r g /\ it = Server.item notes g)
    elements items.
Proof.
  revert items. induction elements as [|r rest IH]; intros items; simpl.
  - intros [= <-]. constructor.
  - destruct (Server.subscript r (lit "generated_text")) as [g|e] eqn:G;
      [|discriminate].
    destruct (Server.questions notes rest) as [its|e]; [|discriminate].
    intros [= <-]. constructor; [exists g; now split | now apply IH].
Qed.

Lemma item_not_qa_record (notes question : value) :
  is_qa_record (Server.item notes question) = false.
Proof.
  unfold is_qa_record, Server.item.
  replace (dict_get [(lit "text", notes); (lit "question", question)]
             (lit "answer")) with (@None value) by reflexivity.
  simpl is_str at 2. now rewrite andb_false_r.
Qed.

(** X11: every response to a POST that the view returns comes from a
    posted JSON object and one call of the pipeline (prompt: the fixed
    instruction followed by the notes, those of the key "notes" or the empty
    text when the key is missing; max_length 100; 3 sequences); it is the
    list of one item per element of what the pipeline returned, in order,
    whatever their number, each with the posted notes as "text" and the
    element's "generated_text" as "question"; having no "answer", no item
    is a QA record. *)
Theorem post_response_shape (E : Server.environment)
  (log : list Server.event) (resp : Server.response) :
  Server.generate E Server.POST = (log, Server.Return resp) ->
  exists data results elements items,
    Server.request_json E = Server.Return (VDict data)
    /\ log = [Server.Infer (prompt_for E (posted_notes data)) 100 3]
    /\ Server.question_generator E (prompt_for E (posted_notes data))
       = Server.Return results
    /\ Server.iterate results = Server.Return elements
    /\ resp = Server.jsonify (VList items)
    /\ Forall2 (fun r it =>
                  exists g, generated r g
                            /\ it = Server.item (posted_notes data) g)
         elements items
    /\ Forall (fun it => is_qa_record it = false) items.
Proof.
  unfold Server.generate.
  destruct (Server.request_json E) as [data|e]; [|discriminate].
  destruct data as [| | | | | | |data]; try discriminate.
  unfold Server.get. fold (posted_notes data).
  fold (prompt_for E (posted_notes data)). cbv zeta.
  destruct (Server.question_generator E _) as [results|e] eqn:Q; [|discriminate].
  destruct (Server.iterate results) as [elements|e] eqn:I; [|discriminate].
  destruct (Server.questions _ elements) as [items|e] eqn:L; [|discriminate].
  intros [= <- <-].
  exists data, results, elements, items.
  apply questions_items in L.
  repeat split; auto.
  clear - L. induction L as [|r it rs its (g & _ & ->) _ IH]; constructor.
  - apply item_not_qa_record.
  - exact IH.
Qed.

Lemma post_response_shape_witness :
  exists data results elements items,
    Server.request_json
      (posting (Server.Return (VDict [(lit "notes", VStr (lit "A. B."))]))
         (Server.Return
            (VList [VDict [(lit "generated_text", VStr (lit "What is A?"))]])))
    = Server.Return (VDict data)
    /\ [Server.Infer (Server.instruction ++ lit "A. B.") 100 3]
       = [Server.Infer
            (prompt_for
               (posting (Server.Return (VDict [(lit "notes", VStr (lit "A. B."))]))
                  (Server.Return
                     (VList [VDict [(lit "generated_text",
                                     VStr (lit "What is A?"))]])))
               (posted_notes data)) 100 3]
    /\ Server.Return
         (VList [VDict [(lit "generated_text", VStr (lit "What is A?"))]])
       = Server.Return results
    /\ Server.iterate results = Server.Return elements
    /\ Server.jsonify
         (VList [Server.item (VStr (lit "A. B.")) (VStr (lit "What is A?"))])
       = Server.jsonify (VList items)
    /\ Forall2 (fun r it =>
                  exists g, generated r g
                            /\ it = Server.item (posted_notes data) g)
         elements items
    /\ Forall (fun it => is_qa_record it = false) items.
Proof.
  apply (@post_response_shape
           (posting (Server.Return (VDict [(lit "notes", VStr (lit "A. B."))]))
              (Server.Return
                 (VList [VDict [(lit "generated_text",
                                 VStr (lit "What is A?"))]])))).
  vm_compute. reflexivity.
Defined.

Lemma questions_fail (notes : value) (good rest : list value) (bad : value)
  (e : Server.error) :
  Forall (fun r => exists g, generated r g) good ->
  Server.subscript bad (lit "generated_text") = Server.Raised e ->
  Server.questions notes (good ++ bad :: rest) = Server.Raised e.
Proof.
  intros Hgood Hbad. induction Hgood as [|r good (g & Hg) _ IH]; simpl.
  - now rewrite Hbad.
  - unfold generated in Hg. rewrite Hg, IH. reflexivity.
Qed.

(** X12: one bad element spoils the whole response: when the posted object
    is read and the pipeline returns, the first element that has no
    "generated_text" (KeyError), or is not a dict (TypeError), makes the
    view raise that exception after the one pipeline call; no partial list
    is returned. *)
Theorem post_fails_on_bad_result (E : Server.environment)
  (data : list (str * value)) (results bad : value)
  (good rest : list value) (e : Server.error) :
  Server.request_json E = Server.Return (VDict data) ->
  Server.question_generator E (prompt_for E (posted_notes data))
  = Server.Return results ->
  Server.iterate results = Server.Return (good ++ bad :: rest) ->
  Forall (fun r => exists g, generated r g) good ->
  Server.subscript bad (lit "generated_text") = Server.Raised e ->
  Server.generate E Server.POST
  = ([Server.Infer (prompt_for E (posted_notes data)) 100 3],
     Server.Raised e).
Proof.
  intros Hj Hq Hi Hgood Hbad. unfold Server.generate.
  rewrite Hj. unfold Server.get. fold (posted_notes data).
  fold (prompt_for E (posted_notes data)). cbv zeta.
  rewrite Hq, Hi.
  rewrite (@questions_fail (posted_notes data) good rest bad e Hgood Hbad).
  reflexivity.
Qed.

Lemma post_fails_on_bad_result_witness :
  Server.generate
    (posting (Server.Return (VDict [(lit "notes", VStr (lit "A. B."))]))
       (Server.Return
          (VList [VDict [(lit "generated_text", VStr (lit "What is A?"))];
                  VDict [(lit "text", VStr (lit "What is B?"))]])))
    Server.POST
  = ([Server.Infer (Server.instruction ++ lit "A. B.") 100 3],
     Server.Raised (Server.KeyError (lit "generated_text"))).
Proof.
  apply (@post_fails_on_bad_result
           (posting (Server.Return (VDict [(lit "notes", VStr (lit "A. B."))]))
              (Server.Return
                 (VList [VDict [(lit "generated_text", VStr (lit "What is A?"))];
                         VDict [(lit "text", VStr (lit "What is B?"))]])))
           [(lit "notes", VStr (lit "A. B."))]
           (VList [VDict [(lit "generated_text", VStr (lit "What is A?"))];
                   VDict [(lit "text", VStr (lit "What is B?"))]])
           (VDict [(lit "text", VStr (lit "What is B?"))])
           [VDict [(lit "generated_text", VStr (lit "What is A?"))]]
           []);
    try reflexivity.
  constructor; [|constructor].
  exists (VStr (lit "What is A?")). reflexivity.
Defined.

(** X13: the view calls the pipeline at most once per request, always for
    at most 100 tokens and 3 sequences, and it calls it exactly when the
    method is POST and [request.json] is a JSON object: never for the
    preflight, for a body that cannot be read, or for a body that is not an
    object. *)
Theorem inference_only_for_posted_object (E : Server.environment)
  (method : Server.http_method) :
  let log := fst (Server.generate E method) in
  (log = [] \/ exists data,
                 log = [Server.Infer (prompt_for E (posted_notes data)) 100 3])
  /\ (log <> [] <->
      method = Server.POST
      /\ exists data, Server.request_json E = Server.Return (VDict data)).
Proof.
  unfold Server.generate. destruct method.
  - simpl. split; [now left|]. split; [congruence | intros [H _]; discriminate].
  - destruct (Server.request_json E) as [data|e].
    + destruct data as [| | | | | | |data];
        try (simpl; split; [now left|];
             split; [congruence | intros [_ [d H]]; discriminate]).
      unfold Server.get. fold (posted_notes data).
      fold (prompt_for E (posted_notes data)). cbv zeta.
      assert (L : fst
                    match Server.question_generator E
                            (prompt_for E (posted_notes data)) with
                    | Server.Return results =>
                        match Server.iterate results with
                        | Server.Return elements =>
                            match Server.questions (posted_notes data) elements with
                            | Server.Return items =>
                                ([Server.Infer (prompt_for E (posted_notes data)) 100 3],
                                 Server.Return (Server.jsonify (VList items)))
                            | Server.Raised e =>
                                ([Server.Infer (prompt_for E (posted_notes data)) 100 3],
                                 Server.Raised e)
                            end
                        | Server.Raised e =>
                            ([Server.Infer (prompt_for E (posted_notes data)) 100 3],
                             Server.Raised e)
                        end
                    | Server.Raised e =>
                        ([Server.Infer (prompt_for E (posted_notes data)) 100 3],
                         Server.Raised e)
                    end
                  = [Server.Infer (prompt_for E (posted_notes data)) 100 3]).
      { destruct (Server.question_generator E _) as [results|e]; [|reflexivity].
        destruct (Server.iterate results) as [elements|e]; [|reflexivity].
        destruct (Server.questions _ elements); reflexivity. }
      rewrite L. split; [right; now exists data|].
      split; [intros _; split; [reflexivity | now exists data] | discriminate].
    + simpl. split; [now left|].
      split; [congruence | intros [_ [d H]]; discriminate].
Qed.

(* ================================================================== *)
(** * Properties of json.dumps and of the example run *)
(* ================================================================== *)

(** ** Reading back a text *)

Lemma lex_silent (st st' : Json.lex_state) (c : char) (s : str) :
  Json.lex_step st c = Some (st', []) ->
  Json.lex st (c :: s) = Json.lex st' s.
Proof.
  intros H. simpl. rewrite H. destruct (Json.lex st' s); reflexivity.
Qed.

Lemma lex_emit (st st' : Json.lex_state) (c : char) (t : Json.token)
  (s : str) :
  Json.lex_step st c = Some (st', [t]) ->
  Json.lex st (c :: s) = option_map (cons t) (Json.lex st' s).
Proof.
  intros H. simpl. rewrite H. destruct (Json.lex st' s); reflexivity.
Qed.

Lemma hex_value_digit (d : N) :
  (d < 16)%N -> Json.hex_value (Dumps.hex_digit d) = Some d.
Proof.
  intros H.
  assert (E : (d = 0 \/ d = 1 \/ d = 2 \/ d = 3 \/ d = 4 \/ d = 5 \/ d = 6
               \/ d = 7 \/ d = 8 \/ d = 9 \/ d = 10 \/ d = 11 \/ d = 12
               \/ d = 13 \/ d = 14 \/ d = 15)%N) by lia.
  repeat (destruct E as [-> | E]; [reflexivity|]). subst. reflexivity.
Qed.

Lemma hex_digits_value (u : N) :
  (u < 65536)%N ->
  ((((u / 4096) * 16 + (u / 256) mod 16) * 16 + (u / 16) mod 16) * 16
   + u mod 16 = u)%N.
Proof.
  intros H.
  change 4096%N with (16 * (16 * 16))%N. change 256%N with (16 * 16)%N.
  rewrite <- !N.Div0.div_div.
  pose proof (N.div_mod u 16) as E1.
  pose proof (N.div_mod (u / 16) 16) as E2.
  pose proof (N.div_mod (u / 16 / 16) 16) as E3.
  pose proof (N.mod_small (u / 16 / 16 / 16) 16) as E4.
  assert (u / 16 / 16 / 16 < 16)%N.
  { apply N.Div0.div_lt_upper_bound. apply N.Div0.div_lt_upper_bound.
    apply N.Div0.div_lt_upper_bound. exact H. }
  lia.
Qed.

Lemma lex_u_escape (u : N) (acc : str) (hi : bool) (tail : str) :
  (u < 65536)%N ->
  Json.lex (Json.LString acc hi) (Dumps.u_escape u ++ tail)
  = Json.lex (Json.add_escaped acc hi u) tail.
Proof.
  intros Hu. unfold Dumps.u_escape. cbn [app].
  assert (H1 : (u / 4096 < 16)%N)
    by (apply N.Div0.div_lt_upper_bound; exact Hu).
  assert (H2 : ((u / 256) mod 16 < 16)%N) by (apply N.mod_lt; discriminate).
  assert (H3 : ((u / 16) mod 16 < 16)%N) by (apply N.mod_lt; discriminate).
  assert (H4 : (u mod 16 < 16)%N) by (apply N.mod_lt; discriminate).
  rewrite (@lex_silent _ (Json.LEscape acc hi)) by reflexivity.
  rewrite (@lex_silent _ (Json.LUnicode acc hi [])) by reflexivity.
  rewrite (@lex_silent _ (Json.LUnicode acc hi [u / 4096]%N))
    by (cbn [Json.lex_step]; now rewrite hex_value_digit).
  rewrite (@lex_silent _ (Json.LUnicode acc hi [u / 4096; (u / 256) mod 16]%N))
    by (cbn [Json.lex_step]; now rewrite hex_value_digit).
  rewrite (@lex_silent _ (Json.LUnicode acc hi
                            [u / 4096; (u / 256) mod 16; (u / 16) mod 16]%N))
    by (cbn [Json.lex_step]; now rewrite hex_value_digit).
  rewrite (@lex_silent _ (Json.add_escaped acc hi u)).
  - reflexivity.
  - cbn [Json.lex_step]. rewrite hex_value_digit by assumption.
    now rewrite hex_digits_value.
Qed.

Lemma lor_shiftl (a b k : N) :
  (b < 2 ^ k)%N -> N.lor (N.shiftl a k) b = (a * 2 ^ k + b)%N.
Proof.
  intros Hb.
  assert (L : N.land (N.shiftl a k) b = 0%N).
  { apply N.bits_inj_0. intros i. rewrite N.land_spec.
    destruct (N.lt_ge_cases i k) as [Hi|Hi].
    - now rewrite N.shiftl_spec_low.
    - rewrite <- (N.mod_small b (2 ^ k)) by assumption.
      rewrite N.mod_pow2_bits_high by assumption. apply andb_false_r. }
  rewrite <- N.lxor_lor, <- N.add_nocarry_lxor by assumption.
  now rewrite N.shiftl_mul_pow2.
Qed.

(** The two halves [json.dumps] writes for a code point from 65536 on are
    a high and a low surrogate, which [json.loads] joins again. *)
Lemma surrogate_pair (c : N) :
  (65536 <= c < 1114112)%N ->
  let n := (c - 65536)%N in
  let h := N.lor 55296 (N.land (N.shiftr n 10) 1023) in
  let l := N.lor 56320 (N.land n 1023) in
  (h < 65536)%N /\ (l < 65536)%N
  /\ Json.is_high h = true /\ Json.is_low l = true
  /\ (65536 + N.lor (N.shiftl (h - 55296) 10) (l - 56320))%N = c.
Proof.
  intros Hc n h l.
  assert (Hn : (n < 1048576)%N) by (unfold n; lia).
  assert (Ha : (n / 1024 < 1024)%N)
    by (apply N.Div0.div_lt_upper_bound; exact Hn).
  assert (Hb : (n mod 1024 < 1024)%N) by (apply N.mod_lt; discriminate).
  assert (Eh : h = (55296 + n / 1024)%N).
  { unfold h. change 1023%N with (N.ones 10).
    rewrite N.land_ones, N.shiftr_div_pow2.
    change (2 ^ 10)%N with 1024%N. rewrite (N.mod_small _ _ Ha).
    change 55296%N with (N.shiftl 54 10) at 1.
    rewrite lor_shiftl by exact Ha. reflexivity. }
  assert (El : l = (56320 + n mod 1024)%N).
  { unfold l. change 1023%N with (N.ones 10). rewrite N.land_ones.
    change (2 ^ 10)%N with 1024%N.
    change 56320%N with (N.shiftl 55 10) at 1.
    rewrite lor_shiftl by exact Hb. reflexivity. }
  assert (Ec : c = (65536 + n)%N) by (unfold n; lia).
  rewrite Eh, El. clear Eh El. clearbody h l. clearbody n.
  rewrite (N.add_comm 55296), (N.add_comm 56320), !N.add_sub.
  rewrite lor_shiftl by exact Hb. change (2 ^ 10)%N with 1024%N.
  pose proof (N.div_mod n 1024) as E.
  remember (n / 1024)%N as a. remember (n mod 1024)%N as b.
  unfold Json.is_high, Json.is_low.
  repeat split; try lia.
  - apply andb_true_intro. split; apply N.leb_le; lia.
  - apply andb_true_intro. split; apply N.leb_le; lia.
Qed.

Lemma scalar_not_high (c : char) : scalar c -> Json.is_high c = false.
Proof.
  unfold scalar, Json.is_high. intros [H | [H _]].
  - destruct (N.leb_spec 55296 c); [lia | reflexivity].
  - destruct (N.leb_spec c 56319); [lia | apply andb_false_r].
Qed.

Lemma add_escaped_plain (acc : str) (c : char) :
  scalar c -> Json.add_escaped acc false c = Json.LString (c :: acc) false.
Proof.
  intros H. unfold Json.add_escaped.
  rewrite (scalar_not_high H). destruct acc; reflexivity.
Qed.

Ltac short_escape :=
  cbn [app];
  erewrite lex_silent by reflexivity;
  erewrite lex_silent by reflexivity;
  reflexivity.

(** One character of a text, as [json.dumps] writes it, is read back as
    that character. *)
Lemma lex_escape_char (c : char) (acc tail : str) :
  scalar c ->
  Json.lex (Json.LString acc false) (Dumps.escape_char c ++ tail)
  = Json.lex (Json.LString (c :: acc) false) tail.
Proof.
  intros Hc. unfold Dumps.escape_char.
  destruct (N.eqb_spec c 34) as [->|N34]; [short_escape|].
  destruct (N.eqb_spec c 92) as [->|N92]; [short_escape|].
  destruct (N.eqb_spec c 8) as [->|N8]; [short_escape|].
  destruct (N.eqb_spec c 12) as [->|N12]; [short_escape|].
  destruct (N.eqb_spec c 10) as [->|N10]; [short_escape|].
  destruct (N.eqb_spec c 13) as [->|N13]; [short_escape|].
  destruct (N.eqb_spec c 9) as [->|N9]; [short_escape|].
  destruct (N.leb_spec 32 c) as [L32|L32]; cbn [andb].
  - destruct (N.leb_spec c 126) as [L126|L126].
    + cbn [app]. apply lex_silent. cbn [Json.lex_step].
      destruct (N.eqb_spec c 34); [contradiction|].
      destruct (N.eqb_spec c 92); [contradiction|].
      destruct (N.ltb_spec c 32); [lia | reflexivity].
    + destruct (N.ltb_spec c 65536) as [Lu|Lu].
      * rewrite lex_u_escape by assumption. now rewrite add_escaped_plain.
      * assert (Hr : (65536 <= c < 1114112)%N) by (destruct Hc; lia).
        destruct (surrogate_pair Hr) as (Hh & Hl & Ih & Il & E).
        cbv zeta in *. rewrite <- app_assoc.
        rewrite lex_u_escape by assumption.
        unfold Json.add_escaped at 1.
        assert (X : forall acc0,
                   Json.lex
                     (Json.LString
                        (N.lor 55296 (N.land (N.shiftr (c - 65536) 10) 1023)
                           :: acc0) true)
                     (Dumps.u_escape (N.lor 56320 (N.land (c - 65536) 1023))
                        ++ tail)
                   = Json.lex (Json.LString (c :: acc0) false) tail).
        { intros acc0. rewrite lex_u_escape by assumption.
          unfold Json.add_escaped. rewrite Il. cbn [andb]. now rewrite E. }
        rewrite Ih. destruct acc as [|x acc]; cbn [andb]; apply X.
  - destruct (N.ltb_spec c 65536) as [Lu|Lu]; [|lia].
    rewrite lex_u_escape by assumption. now rewrite add_escaped_plain.
Qed.

Lemma lex_escaped_text (s acc tail : str) :
  Forall scalar s ->
  Json.lex (Json.LString acc false) (flat_map Dumps.escape_char s ++ tail)
  = Json.lex (Json.LString (rev s ++ acc) false) tail.
Proof.
  intros Hs. revert acc. induction Hs as [|c s Hc _ IH]; intros acc.
  - reflexivity.
  - cbn [flat_map]. rewrite <- app_assoc, lex_escape_char by assumption.
    rewrite IH. cbn [rev]. now rewrite <- app_assoc.
Qed.

(** A text written by [json.dumps] is read back as one string token. *)
Lemma lex_encode_str (s tail : str) :
  Forall scalar s ->
  Json.lex Json.LIdle (Dumps.encode_str s ++ tail)
  = option_map (cons (Json.TScalar (VStr s))) (Json.lex Json.LIdle tail).
Proof.
  intros Hs. unfold Dumps.encode_str. rewrite <- !app_assoc. cbn [app].
  rewrite (@lex_silent _ (Json.LString [] false)) by reflexivity.
  rewrite lex_escaped_text by assumption. rewrite app_nil_r.
  rewrite (@lex_emit _ Json.LIdle _ (Json.TScalar (VStr s))).
  - reflexivity.
  - cbn [Json.lex_step]. unfold DQUOTE. rewrite N.eqb_refl.
    now rewrite rev_involutive.
Qed.

(** ** Reading back an integer *)

Lemma lex_number_end (text tail : str) :
  delimited tail ->
  Json.lex (Json.LNumber Json.NInt text) tail
  = option_map (cons (Json.TScalar (VInt (Json.int_of_text (rev text)))))
      (Json.lex Json.LIdle tail).
Proof.
  destruct tail as [|c tail]; [reflexivity|]. intros (Hd & Hp & He).
  cbn [Json.lex Json.lex_step Json.lex_number]. rewrite Hd, Hp, He.
  unfold Json.lex_after. destruct (Json.lex_idle c) as [[st toks]|]; [|reflexivity].
  destruct (Json.lex st tail); reflexivity.
Qed.

Lemma lex_zero_end (tail : str) :
  delimited tail ->
  Json.lex (Json.LNumber Json.NZero [48%N]) tail
  = option_map (cons (Json.TScalar (VInt 0))) (Json.lex Json.LIdle tail).
Proof.
  destruct tail as [|c tail]; [reflexivity|]. intros (Hd & Hp & He).
  cbn [Json.lex Json.lex_step Json.lex_number]. rewrite Hp, He.
  unfold Json.lex_after. destruct (Json.lex_idle c) as [[st toks]|]; [|reflexivity].
  destruct (Json.lex st tail); reflexivity.
Qed.

Lemma lex_digits (d : Decimal.uint) (text tail : str) :
  delimited tail ->
  Json.lex (Json.LNumber Json.NInt text)
    (lit (NilEmpty.string_of_uint d) ++ tail)
  = option_map
      (cons (Json.TScalar
               (VInt (Json.int_of_text
                        (rev text ++ lit (NilEmpty.string_of_uint d))))))
      (Json.lex Json.LIdle tail).
Proof.
  intros Ht. revert text.
  induction d; intros text;
    cbn [NilEmpty.string_of_uint lit list_ascii_of_string map app];
    [rewrite app_nil_r; now apply lex_number_end | ..];
    (erewrite lex_silent by reflexivity);
    fold (lit (NilEmpty.string_of_uint d)); rewrite IHd;
    cbn [rev]; rewrite <- app_assoc; reflexivity.
Qed.

Lemma to_uint_no_leading_zero (p : positive) (d : Decimal.uint) :
  Pos.to_uint p <> Decimal.D0 d.
Proof.
  intros E.
  assert (Hn : Decimal.unorm (Pos.to_uint p) = Pos.to_uint p).
  { rewrite <- (Unsigned.to_of (Pos.to_uint p)), Unsigned.of_to.
    reflexivity. }
  rewrite E, DecimalFacts.unorm_D0 in Hn.
  destruct d as [| | | | | | | | | |];
    [apply (Unsigned.to_uint_nonzero p); exact E | ..].
  all: match type of Hn with
       | Decimal.unorm ?u = _ =>
           assert (Hu : u <> Decimal.Nil) by discriminate;
           pose proof (@DecimalFacts.nb_digits_unorm u Hu) as Hl;
           rewrite Hn in Hl; simpl in Hl; lia
       end.
Qed.

(** The decimal text of an integer is read back as that integer. *)
Lemma lex_int (z : Z) (tail : str) :
  delimited tail ->
  Json.lex Json.LIdle (str_of_int z ++ tail)
  = option_map (cons (Json.TScalar (VInt z))) (Json.lex Json.LIdle tail).
Proof.
  intros Ht. pose proof (str_of_int_decimal z) as V. revert V.
  unfold str_of_int. destruct z as [|p|p].
  - intros _. change (lit (NilZero.string_of_int (Z.to_int 0))) with [48%N].
    cbn [app]. erewrite lex_silent by reflexivity. now apply lex_zero_end.
  - simpl Z.to_int. simpl NilZero.string_of_int.
    rewrite (string_of_uint_nonnil (Unsigned.to_uint_nonnil p)).
    pose proof (@to_uint_no_leading_zero p) as Hz.
    pose proof (Unsigned.to_uint_nonnil p) as Hn.
    destruct (Pos.to_uint p) as [|d|d|d|d|d|d|d|d|d|d];
      [contradiction | now contradiction (Hz d) | ..];
      cbn [NilEmpty.string_of_uint lit list_ascii_of_string map app];
      fold (lit (NilEmpty.string_of_uint d)); intros V;
      (erewrite lex_silent by reflexivity);
      rewrite lex_digits by assumption; cbn [rev app]; now rewrite V.
  - simpl Z.to_int. simpl NilZero.string_of_int.
    rewrite (string_of_uint_nonnil (Unsigned.to_uint_nonnil p)).
    pose proof (@to_uint_no_leading_zero p) as Hz.
    pose proof (Unsigned.to_uint_nonnil p) as Hn.
    destruct (Pos.to_uint p) as [|d|d|d|d|d|d|d|d|d|d];
      [contradiction | now contradiction (Hz d) | ..];
      cbn [NilEmpty.string_of_uint lit list_ascii_of_string map app];
      fold (lit (NilEmpty.string_of_uint d)); intros V;
      (erewrite lex_silent by reflexivity);
      (erewrite lex_silent by reflexivity);
      rewrite lex_digits by assumption; cbn [rev app]; now rewrite V.
Qed.

(** ** Reading back lists and dicts *)

Lemma lex_newline_indent (level : nat) (tail : str) :
  Json.lex Json.LIdle (Dumps.newline_indent level ++ tail)
  = Json.lex Json.LIdle tail.
Proof.
  unfold Dumps.newline_indent. cbn [app].
  erewrite lex_silent by reflexivity.
  induction (2 * level)%nat as [|k IH]; [reflexivity|].
  cbn [repeat app]. erewrite lex_silent by reflexivity. exact IH.
Qed.

Lemma option_map_app {A} (l1 l2 : list A) (o : option (list A)) :
  option_map (app l1) (option_map (app l2) o) = option_map (app (l1 ++ l2)) o.
Proof. destruct o; simpl; [now rewrite app_assoc | reflexivity]. Qed.

Lemma option_map_cons {A} (x : A) (o : option (list A)) :
  option_map (cons x) o = option_map (app [x]) o.
Proof. reflexivity. Qed.

Lemma delimited_comma (tail : str) : delimited (44%N :: tail).
Proof. repeat split. Qed.

Lemma delimited_newline (level : nat) (tail : str) :
  delimited (Dumps.newline_indent level ++ tail).
Proof. repeat split. Qed.

Lemma lex_punct (c : char) (t : Json.token) (tail : str) :
  Json.lex_idle c = Some (Json.LIdle, [t]) ->
  Json.lex Json.LIdle ([c] ++ tail)
  = option_map (app [t]) (Json.lex Json.LIdle tail).
Proof. intros H. now apply lex_emit. Qed.

Lemma lex_members (level : nat) (closing : char) (tc : Json.token)
  (others : list str) (toks : list (list Json.token)) (tail : str) :
  Json.lex_idle closing = Some (Json.LIdle, [tc]) ->
  Forall2 reads_as others toks ->
  Json.lex Json.LIdle
    (flat_map (fun m => [44%N] ++ Dumps.newline_indent (S level) ++ m) others
       ++ Dumps.newline_indent level ++ [closing] ++ tail)
  = option_map (app (flat_map (cons Json.TComma) toks ++ [tc]))
      (Json.lex Json.LIdle tail).
Proof.
  intros Hc H. induction H as [|m t others toks Hm _ IH].
  - cbn [flat_map]. change ([] ++ ?x) with x.
    rewrite lex_newline_indent. now apply lex_punct.
  - cbn [flat_map]. rewrite <- !app_assoc.
    rewrite (@lex_punct 44%N Json.TComma) by reflexivity.
    rewrite lex_newline_indent. rewrite Hm.
    + rewrite IH, !option_map_app. reflexivity.
    + destruct others; [apply delimited_newline | apply delimited_comma].
Qed.

Lemma lex_encode_seq (level : nat) (opening closing : char)
  (to tc : Json.token) (members : list str) (toks : list (list Json.token))
  (tail : str) :
  Json.lex_idle opening = Some (Json.LIdle, [to]) ->
  Json.lex_idle closing = Some (Json.LIdle, [tc]) ->
  Forall2 reads_as members toks ->
  Json.lex Json.LIdle (Dumps.encode_seq level opening closing members ++ tail)
  = option_map (app (to :: separated toks ++ [tc]))
      (Json.lex Json.LIdle tail).
Proof.
  intros Ho Hc H. destruct H as [|m t others toks Hm Hothers].
  - cbn [Dumps.encode_seq separated].
    change ([opening; closing] ++ tail) with ([opening] ++ [closing] ++ tail).
    rewrite (@lex_punct _ _ _ Ho), (@lex_punct _ _ _ Hc), option_map_app.
    reflexivity.
  - cbn [Dumps.encode_seq separated]. rewrite <- !app_assoc.
    rewrite (@lex_punct _ _ _ Ho), lex_newline_indent, Hm.
    + rewrite (@lex_members level _ _ _ _ _ Hc Hothers), !option_map_app.
      reflexivity.
    + destruct others; [apply delimited_newline | apply delimited_comma].
Qed.

Lemma Forall2_map_same {A B C} (R : B -> C -> Prop) (f : A -> B) (g : A -> C)
  (l : list A) :
  Forall (fun x => R (f x) (g x)) l -> Forall2 R (map f l) (map g l).
Proof. induction 1; simpl; constructor; auto. Qed.

Lemma reads_word (text : str) (v : value) (c1 c2 c3 c4 : char) :
  text = [c1; c2; c3; c4] ->
  (exists w, Json.lex_idle c1 = Some (Json.LWord [c2; c3; c4] w, []) /\ w = v) ->
  reads_as text [Json.TScalar v].
Proof.
  intros -> (w & H1 & ->) tail _. cbn [app].
  rewrite (@lex_silent _ (Json.LWord [c2; c3; c4] v)) by exact H1.
  rewrite (@lex_silent _ (Json.LWord [c3; c4] v))
    by (cbn [Json.lex_step]; now rewrite N.eqb_refl).
  rewrite (@lex_silent _ (Json.LWord [c4] v))
    by (cbn [Json.lex_step]; now rewrite N.eqb_refl).
  apply lex_emit. cbn [Json.lex_step]. now rewrite N.eqb_refl.
Qed.

(** The text [json.dumps] writes for an object is read as its tokens. *)
Lemma lex_dumps (v : value) :
  dumpable v -> forall level, reads_as (Dumps.dumps_at level v) (tokens_of v).
Proof.
  induction v as [|b|z|repr|s|items IH|items IH|kvs IH]
    using value_nested_ind; intros Hd level.
  - apply (@reads_word _ _ 110 117 108 108)%N; [reflexivity|].
    eexists. split; reflexivity.
  - destruct b.
    + apply (@reads_word _ _ 116 114 117 101)%N; [reflexivity|].
      eexists. split; reflexivity.
    + intros tail _.
      change (Dumps.dumps_at level (VBool false) ++ tail)
        with (102 :: 97 :: 108 :: 115 :: 101 :: tail)%N.
      do 4 (erewrite lex_silent by reflexivity).
      now apply lex_emit.
  - intros tail Ht. cbn [Dumps.dumps_at tokens_of]. now apply lex_int.
  - inversion Hd.
  - inversion Hd as [| | |? Hs| |]; subst. intros tail _.
    cbn [Dumps.dumps_at tokens_of]. now apply lex_encode_str.
  - inversion Hd as [| | | |? Hitems|]; subst. intros tail _.
    cbn [Dumps.dumps_at tokens_of].
    apply (@lex_encode_seq level 91 93 Json.TLBrack Json.TRBrack)%N;
      try reflexivity.
    apply Forall2_map_same.
    rewrite Forall_forall in *. intros x Hx. apply IH; auto.
  - inversion Hd.
  - inversion Hd as [| | | | |? Hnd Hkvs]; subst. intros tail _.
    cbn [Dumps.dumps_at tokens_of].
    apply (@lex_encode_seq level 123 125 Json.TLBrace Json.TRBrace)%N;
      try reflexivity.
    apply Forall2_map_same.
    rewrite Forall_forall in *. intros [k x] Hx.
    destruct (Hkvs _ Hx) as [Hk Hdx]. specialize (IH _ Hx Hdx (S level)).
    simpl in Hk, IH. intros tail' Ht'.
    rewrite <- !app_assoc, lex_encode_str by assumption.
    change (lit ": " ++ ?r) with ([58%N] ++ 32%N :: r).
    rewrite (@lex_punct 58%N Json.TColon) by reflexivity.
    erewrite lex_silent by reflexivity.
    rewrite IH by assumption.
    destruct (Json.lex Json.LIdle tail'); reflexivity.
Qed.

(** ** Parsing back the tokens *)

Lemma str_eqb_neq (a b : str) : a <> b -> str_eqb a b = false.
Proof.
  intros H. unfold str_eqb. destruct (list_eq_dec N.eq_dec a b); congruence.
Qed.

Lemma dict_set_fresh (kvs : list (str * value)) (k : str) (v : value) :
  ~ In k (map fst kvs) -> dict_set kvs k v = kvs ++ [(k, v)].
Proof.
  induction kvs as [|[k' v'] kvs IH]; intros H; simpl; [reflexivity|].
  rewrite str_eqb_neq by (intros ->; apply H; now left).
  rewrite IH by (intros Hin; apply H; now right). reflexivity.
Qed.

Lemma parse_array_rest (rest : list value) :
  Forall parses_back rest ->
  forall acc stack toks,
    Json.parse (Json.MNext, Json.FArr acc :: stack)
      (flat_map (cons Json.TComma) (map tokens_of rest)
         ++ Json.TRBrack :: toks)
    = match Json.push_value (VList (rev acc ++ rest)) stack with
      | Some ps => Json.parse ps toks
      | None => None
      end.
Proof.
  induction 1 as [|y rest Hy _ IH]; intros acc stack toks.
  - cbn [map flat_map app Json.parse Json.parse_step].
    now rewrite app_nil_r.
  - cbn [map flat_map]. rewrite <- !app_assoc.
    change ((Json.TComma :: tokens_of y) ++ ?r)
      with (Json.TComma :: tokens_of y ++ r).
    cbn [Json.parse Json.parse_step]. rewrite Hy.
    cbn [Json.push_value]. rewrite IH. cbn [rev].
    now rewrite <- app_assoc.
Qed.

Lemma parse_dict_rest (rest : list (str * value)) :
  Forall (fun kv => parses_back (snd kv)) rest ->
  forall acc stack toks,
    NoDup (map fst (acc ++ rest)) ->
    Json.parse (Json.MNext, Json.FObj acc None :: stack)
      (flat_map (cons Json.TComma) (map member_tokens rest)
         ++ Json.TRBrace :: toks)
    = match Json.push_value (VDict (acc ++ rest)) stack with
      | Some ps => Json.parse ps toks
      | None => None
      end.
Proof.
  induction 1 as [|[k x] rest Hx _ IH]; intros acc stack toks Hnd.
  - cbn [map flat_map app Json.parse Json.parse_step].
    now rewrite app_nil_r.
  - cbn [map flat_map member_tokens]. rewrite <- !app_assoc.
    change ((Json.TComma :: Json.TScalar (VStr k) :: Json.TColon
               :: tokens_of x) ++ ?r)
      with (Json.TComma :: Json.TScalar (VStr k) :: Json.TColon
              :: tokens_of x ++ r).
    cbn [Json.parse Json.parse_step]. simpl in Hx. rewrite Hx.
    cbn [Json.push_value].
    assert (Hk : ~ In k (map fst acc)).
    { rewrite map_app in Hnd. simpl in Hnd.
      apply NoDup_remove_2 in Hnd. intros Hin. apply Hnd.
      apply in_or_app. now left. }
    rewrite (@dict_set_fresh acc k x Hk), IH.
    + now rewrite <- app_assoc.
    + now rewrite <- app_assoc.
Qed.

(** The tokens of an object are parsed back to the object. *)
Lemma parse_tokens (v : value) : dumpable v -> parses_back v.
Proof.
  induction v as [|b|z|repr|s|items IH|items IH|kvs IH]
    using value_nested_ind; intros Hd; try (inversion Hd; fail);
    try (intros [|] stack toks; reflexivity).
  - inversion Hd as [| | | |? Hitems|]; subst.
    assert (Hall : Forall parses_back items).
    { rewrite Forall_forall in *. auto. }
    destruct Hall as [|x rest Hx Hrest];
      intros [|] stack toks; try reflexivity;
      cbn [tokens_of map separated]; rewrite <- !app_assoc;
      change ((Json.TLBrack :: ?a) ++ ?r) with (Json.TLBrack :: a ++ r);
      rewrite <- !app_assoc;
      cbn [Json.parse Json.parse_step]; rewrite Hx;
      cbn [Json.push_value];
      change ([Json.TRBrack] ++ toks) with (Json.TRBrack :: toks);
      now rewrite (parse_array_rest Hrest).
  - inversion Hd as [| | | | |? Hnd Hkvs]; subst.
    assert (Hall : Forall (fun kv => parses_back (snd kv)) kvs).
    { rewrite Forall_forall in *. intros kv Hin.
      apply IH; [exact Hin | apply (Hkvs _ Hin)]. }
    destruct Hall as [|[k x] rest Hx Hrest];
      intros [|] stack toks; try reflexivity;
      cbn [tokens_of]; fold member_tokens;
      cbn [map separated member_tokens]; rewrite <- !app_assoc;
      change ((Json.TLBrace :: ?a) ++ ?r) with (Json.TLBrace :: a ++ r);
      rewrite <- !app_assoc;
      change ((Json.TScalar (VStr k) :: Json.TColon :: tokens_of x) ++ ?r)
        with (Json.TScalar (VStr k) :: Json.TColon :: tokens_of x ++ r);
      cbn [Json.parse Json.parse_step]; simpl in Hx; rewrite Hx;
      cbn [Json.push_value Py.dict_set];
      change ([Json.TRBrace] ++ toks) with (Json.TRBrace :: toks);
      now rewrite (@parse_dict_rest rest Hrest [(k, x)] stack toks Hnd).
Qed.

(** ** The round trip *)

Lemma decode_dumps (v : value) :
  dumpable v -> Json.decode (Dumps.dumps v) = Some v.
Proof.
  intros Hd. unfold Json.decode, Dumps.dumps.
  pose proof (@lex_dumps v Hd 0%nat [] I) as Hl.
  rewrite app_nil_r in Hl. rewrite Hl.
  change (Json.lex Json.LIdle []) with (Some (@nil Json.token)).
  cbn [option_map]. rewrite (parse_tokens Hd false [] []). reflexivity.
Qed.


Lemma lit_scalar (s : string) : Forall scalar (lit s).
Proof.
  unfold lit. induction s as [|a s IH]; simpl; constructor; [|exact IH].
  left. unfold ch. pose proof (N_ascii_bounded a). lia.
Qed.

Lemma qa_dumpable (question answer text : str) :
  Forall scalar question -> Forall scalar answer -> Forall scalar text ->
  dumpable (qa question answer text).
Proof.
  intros Hq Ha Ht. unfold qa. constructor.
  - vm_compute. repeat constructor; simpl; intuition discriminate.
  - repeat constructor; simpl; auto using lit_scalar.
Qed.


(** Two surrogates side by side do not come back: the decoder joins the
    two escapes into one character. *)
Remark surrogates_joined :
  Json.decode (Dumps.dumps (VStr [55357; 56832]%N)) = Some (VStr [128512%N]).
Proof. vm_compute. reflexivity. Qed.

(** ** The printed records *)

Lemma contains_sub (P : char -> Prop) (u t : str) :
  contains u t -> Forall P t -> Forall P u.
Proof.
  intros (a & b & ->) H.
  apply Forall_app in H as [_ H]. now apply Forall_app in H as [H _].
Qed.

Lemma slice_to_sub (P : char -> Prop) (s : str) (n : Z) :
  Forall P s -> Forall P (slice_to s n).
Proof. apply Forall_firstn. Qed.

Lemma record_of_dumpable (u : str) : Forall scalar u -> dumpable (record_of u).
Proof.
  intros Hu. apply qa_dumpable; [| |exact Hu];
    unfold question_of, answer_of;
    repeat (apply Forall_app; split);
    auto using lit_scalar, slice_to_sub.
Qed.

Lemma padding_dumpable (sents : list str) :
  Forall (Forall scalar) sents -> dumpable (padding sents).
Proof.
  intros H. apply qa_dumpable; try apply lit_scalar.
  destruct H; [constructor | assumption].
Qed.

Lemma mock_generate_dumpable (notes : str) (n : Z) :
  Forall scalar notes -> dumpable (VList (mock_generate notes n)).
Proof.
  intros Hn.
  assert (Hs : Forall (Forall scalar) (sentences notes)).
  { eapply Forall_impl; [|apply sentences_contained].
    intros u Hu. exact (contains_sub Hu Hn). }
  constructor. rewrite mock_generate_eq. apply Forall_app. split.
  - rewrite Forall_map. apply Forall_firstn.
    eapply Forall_impl; [|exact Hs]. apply record_of_dumpable.
  - apply Forall_forall. intros r Hr. apply repeat_spec in Hr. subst r.
    now apply padding_dumpable.
Qed.

(** X15: printed with [json.dumps(..., indent=2)], as the example run
    does, the records of the heuristic generator are read back by
    [safe_json_parse] as they were, without a warning, for any count and
    any notes made of Unicode scalar values. *)
Theorem heuristic_output_parses_back (notes : str) (n : Z) :
  Forall scalar notes ->
  safe_json_parse (VStr (Dumps.dumps (VList (mock_generate notes n))))
  = ([], Ok (VList (mock_generate notes n))).
Proof.
  intros Hn. unfold safe_json_parse, Json.loads.
  now rewrite (decode_dumps (mock_generate_dumpable n Hn)).
Qed.

Lemma heuristic_output_parses_back_witness :
  let notes := lit "Plan first. Apply later" in
  Forall scalar notes
  /\ safe_json_parse (VStr (Dumps.dumps (VList (mock_generate notes 3))))
     = ([], Ok (VList (mock_generate notes 3))).
Proof.
  split; [apply lit_scalar|].
  apply heuristic_output_parses_back, lit_scalar.
Defined.

(** ** The example run *)





